(** * The recommendation engine of the Music Recommender (app.js)

    A shallow embedding of the class [MusicRecommender] of [src/app.js]
    (the revision that tracks [recentlyShown]), restricted to the part that
    decides what is recommended: preference aggregation, scoring, selection,
    the cold-start draw, replacement on removal and the saved-for-later
    list.  DOM rendering and local storage are left out: they read the
    state and never write the fields modelled here.

    Conventions of the embedding.

    - An artist identifier is a JavaScript number (catalog entries, modelled
      as an integer) or a string (user-added entries, [custom_<time>]).
      [===] and [Array.prototype.includes] compare identifiers strictly;
      the keys of [userRatings] are strings, reached through [ToString];
      [a.id == artistId] is the loose comparison of an identifier with such
      a key.
    - Ratings, weights and the integer part of a score are integers: on
      integers below 2^53 the arithmetic of JavaScript numbers is exact.
      A value of [Math.random()] is a rational of [0,1) and the arithmetic
      on it is exact; that the draws are uniformly distributed is not
      expressed.
    - [Math.random] is the sequence [random 0, random 1, ...]; the state
      counts the calls made so far ([randomCalls]).
    - The comparator [() => Math.random() - 0.5] is not a consistent
      ordering, so what [sort] returns for it is left to the JavaScript
      engine: it is the parameter [sortRandomly].
    - Objects are used as maps with keys that are not members of
      [Object.prototype]; a stored rating is an object, hence truthy. *)

From Stdlib Require Import ZArith QArith Qround String DecimalString.
From stdpp Require Import gmap strings list fin_maps sorting.

Open Scope Z_scope.

(** ** JavaScript primitives *)

(** Identifiers: a number or a string. *)
Inductive Id : Type :=
  | NumId (n : Z)
  | StrId (s : string).

#[global] Instance Id_eq_dec : EqDecision Id.
Proof. solve_decision. Defined.

(** [ToString] of an identifier, as used for a property key. *)
Definition ToString (i : Id) : string :=
  match i with
  | NumId n => NilZero.string_of_int (Z.to_int n)
  | StrId s => s
  end.

(** [ToNumber] of a string, on the strings that denote an integer in decimal
    digits with an optional minus sign (and the empty string, which is 0).
    Every other string is taken as not equal to any integer identifier
    (for [custom_...] it is NaN). *)
Definition StringToNumber (s : string) : option Z :=
  if decide (s = EmptyString) then Some 0
  else Z.of_int <$> NilZero.int_of_string s.

(** [x == key] for an identifier [x] and a string [key]. *)
Definition loose_eq (x : Id) (key : string) : bool :=
  match x with
  | StrId s => bool_decide (s = key)
  | NumId n => bool_decide (StringToNumber key = Some n)
  end.

(** [x === y], also the comparison made by [includes]. *)
Definition strict_eq (x y : Id) : bool := bool_decide (x = y).

(** [arr.includes(x)] on identifiers. *)
Definition includes (arr : list Id) (x : Id) : bool :=
  existsb (strict_eq x) arr.

(** The index a relative argument of [slice] stands for. *)
Definition relative_index (len k : Z) : Z :=
  if k <? 0 then Z.max (len + k) 0 else Z.min k len.

(** [arr.slice(start, end)]. *)
Definition js_slice {A : Type} (arr : list A) (start end_ : Z) : list A :=
  let len := Z.of_nat (length arr) in
  let k := relative_index len start in
  let final := relative_index len end_ in
  take (Z.to_nat (final - k)) (drop (Z.to_nat k) arr).

(** [arr.slice(start)]. *)
Definition js_slice_from {A : Type} (arr : list A) (start : Z) : list A :=
  js_slice arr start (Z.of_nat (length arr)).

(** [Math.ceil(count * 0.7)], as the ceiling of [7 * count / 10]: for
    [count >= 0] the rounding of the floating-point product does not change
    the ceiling. *)
Definition ceil_0_7 (count : Z) : Z := - ((- (count * 7)) / 10).

(** A value of [Math.random()]: a rational [r] with [0 <= r < 1]. *)
Record Draw : Type := mkDraw {
  draw_val : Q;
  draw_range : Qle_bool 0 draw_val && negb (Qle_bool 1 draw_val) = true
}.

(** [Math.floor(r * n)]. *)
Definition floor_mul (r : Draw) (n : Z) : Z :=
  Qfloor (draw_val r * inject_Z n).

(** ** Data model *)

Module Artist.
Record t : Type := mk {
  id : Id;
  name : string;
  genres : list string;
  themes : list string;
  styles : list string;
  year : Z;
  era : string;
  isCustom : bool;
  score : option Q  (* absent on catalog entries, set by [{...artist, score}] *)
}.
End Artist.

Module Rating.
Record t : Type := mk {
  rating : Z;
  timestamp : Z
}.
End Rating.

Module ListenItem.
Record t : Type := mk {
  id : Id;
  name : string;
  genres : list string;
  timestamp : Z
}.
End ListenItem.

Module Preferences.
Record t : Type := mk {
  genres : gmap string Z;
  themes : gmap string Z;
  styles : gmap string Z;
  eras : gmap string Z;
  averageRating : Q
}.
End Preferences.

(** The fields of the class, and the number of calls of [Math.random]. *)
Record MusicRecommender : Type := mkApp {
  artists : list Artist.t;
  userRatings : gmap string Rating.t;
  toListenList : list ListenItem.t;
  currentRecommendations : list Artist.t;
  recentlyShown : list Id;
  recommendationCount : Z;
  randomCalls : nat
}.

Definition set_toListenList (v : list ListenItem.t) (app : MusicRecommender) :=
  mkApp (artists app) (userRatings app) v (currentRecommendations app)
        (recentlyShown app) (recommendationCount app) (randomCalls app).

Definition set_currentRecommendations (v : list Artist.t) (app : MusicRecommender) :=
  mkApp (artists app) (userRatings app) (toListenList app) v
        (recentlyShown app) (recommendationCount app) (randomCalls app).

Definition set_recentlyShown (v : list Id) (app : MusicRecommender) :=
  mkApp (artists app) (userRatings app) (toListenList app)
        (currentRecommendations app) v (recommendationCount app) (randomCalls app).

Definition set_randomCalls (v : nat) (app : MusicRecommender) :=
  mkApp (artists app) (userRatings app) (toListenList app)
        (currentRecommendations app) (recentlyShown app) (recommendationCount app) v.

(** [{...artist, score: s}]. *)
Definition with_score (s : Q) (a : Artist.t) : Artist.t :=
  Artist.mk (Artist.id a) (Artist.name a) (Artist.genres a) (Artist.themes a)
            (Artist.styles a) (Artist.year a) (Artist.era a) (Artist.isCustom a)
            (Some s).

(** [a.score] of a scored entry. *)
Definition score_of (a : Artist.t) : Q := default 0%Q (Artist.score a).

(** ** Exclusion tests *)

(** [this.userRatings[id]] is truthy. *)
Definition isRated (app : MusicRecommender) (i : Id) : bool :=
  bool_decide (is_Some (userRatings app !! ToString i)).

(** [this.toListenList.some(item => item.id === id)]. *)
Definition inToListen (app : MusicRecommender) (i : Id) : bool :=
  existsb (λ item, strict_eq (ListenItem.id item) i) (toListenList app).

(** [this.currentRecommendations.some(rec => rec.id === id)]. *)
Definition isDisplayed (app : MusicRecommender) (i : Id) : bool :=
  existsb (λ rec, strict_eq (Artist.id rec) i) (currentRecommendations app).

(** ** getUserPreferences *)

(** [m[k] || 0]. *)
Definition weight (m : gmap string Z) (k : string) : Z := default 0 (m !! k).

(** [m[k] = (m[k] || 0) + w]. *)
Definition addWeight (w : Z) (m : gmap string Z) (k : string) : gmap string Z :=
  <[k := weight m k + w]> m.

(** The profile under construction with [totalRating] and [ratingCount]. *)
Record Tally : Type := mkTally {
  t_genres : gmap string Z;
  t_themes : gmap string Z;
  t_styles : gmap string Z;
  t_eras : gmap string Z;
  totalRating : Z;
  ratingCount : Z
}.

(** The body of the [forEach] over [Object.entries(this.userRatings)]. *)
Definition tallyEntry (catalog : list Artist.t) (acc : Tally)
    (entry : string * Rating.t) : Tally :=
  let '(artistId, data) := entry in
  match List.find (λ a, loose_eq (Artist.id a) artistId) catalog with
  | None => acc
  | Some artist =>
      let w := Rating.rating data in
      mkTally (foldl (addWeight w) (t_genres acc) (Artist.genres artist))
              (foldl (addWeight w) (t_themes acc) (Artist.themes artist))
              (foldl (addWeight w) (t_styles acc) (Artist.styles artist))
              (addWeight w (t_eras acc) (Artist.era artist))
              (totalRating acc + Rating.rating data)
              (ratingCount acc + 1)
  end.

Definition tallyRatings (app : MusicRecommender) : Tally :=
  foldl (tallyEntry (artists app)) (mkTally ∅ ∅ ∅ ∅ 0 0)
        (map_to_list (userRatings app)).

Definition getUserPreferences (app : MusicRecommender) : Preferences.t :=
  let acc := tallyRatings app in
  Preferences.mk (t_genres acc) (t_themes acc) (t_styles acc) (t_eras acc)
    (if 0 <? ratingCount acc
     then (inject_Z (totalRating acc) / inject_Z (ratingCount acc))%Q
     else 0%Q).

(** ** calculateArtistScore *)

(** The score before the random term is added. *)
Definition similarity (artist : Artist.t) (preferences : Preferences.t) : Z :=
  let score := 0 in
  let score := foldl (λ s genre, s + weight (Preferences.genres preferences) genre * 3)
                     score (Artist.genres artist) in
  let score := foldl (λ s theme, s + weight (Preferences.themes preferences) theme * 2)
                     score (Artist.themes artist) in
  let score := foldl (λ s style, s + weight (Preferences.styles preferences) style * 2)
                     score (Artist.styles artist) in
  score + weight (Preferences.eras preferences) (Artist.era artist) * 1.

(** [r] is the value of the call of [Math.random] made by the function. *)
Definition calculateArtistScore (artist : Artist.t) (preferences : Preferences.t)
    (r : Draw) : Q :=
  (inject_Z (similarity artist preferences) + draw_val r * 10)%Q.

(** ** getInitialBandsPool *)

Definition popularBandIds : list Z :=
  [ 1; 2; 3; 11; 18; 21; 44; 43; 47; 9; 56;      (* Classic Rock *)
    26; 33; 82;                                  (* Hard Rock & Metal *)
    13; 31; 20; 27; 71; 98;                      (* Punk & Post-Punk *)
    8; 7; 22; 42; 65; 79; 88; 38; 48; 77; 107;   (* Alternative & Indie *)
    6; 5; 52; 53; 78;                            (* Influential Solo Artists *)
    12; 16; 25; 15; 19;                          (* Pop & R&B Icons *)
    39; 49; 93;                                  (* Reggae & World *)
    10; 23; 54; 50; 70;                          (* Hip-Hop *)
    14; 34; 28; 60; 45 ].                        (* Electronic & Experimental *)

(** [popularBandIds.map(id => this.artists.find(a => a.id === id)).filter(a => a)] *)
Definition getInitialBandsPool (app : MusicRecommender) : list Artist.t :=
  omap (λ n, List.find (λ artist, strict_eq (Artist.id artist) (NumId n)) (artists app))
       popularBandIds.

Arguments getInitialBandsPool : simpl never.

(** ** Eligible candidates *)

(** [unratedArtists] of [generateRecommendations]. *)
Definition unratedArtists (app : MusicRecommender) : list Artist.t :=
  List.filter (λ artist,
      negb (isRated app (Artist.id artist)) &&
      negb (inToListen app (Artist.id artist)))
    (artists app).

(** [availableBands] of [getInitialBands]. *)
Definition availableBands (app : MusicRecommender) : list Artist.t :=
  List.filter (λ artist,
      negb (isRated app (Artist.id artist)) &&
      negb (inToListen app (Artist.id artist)) &&
      negb (includes (recentlyShown app) (Artist.id artist)))
    (getInitialBandsPool app).

(** [availableBands] of [removeRecommendation], drawn from when nothing is
    rated. *)
Definition availableReplacements (app : MusicRecommender) : list Artist.t :=
  List.filter (λ artist,
      negb (isDisplayed app (Artist.id artist)) &&
      negb (inToListen app (Artist.id artist)))
    (getInitialBandsPool app).

(** [unratedArtists] of [removeRecommendation], scored when something is
    rated. *)
Definition unratedReplacements (app : MusicRecommender) : list Artist.t :=
  List.filter (λ artist,
      negb (isRated app (Artist.id artist)) &&
      negb (inToListen app (Artist.id artist)) &&
      negb (isDisplayed app (Artist.id artist)))
    (artists app).

(** ** Sorting by score *)

(** [x] goes before the first entry whose score is not above its own. *)
Fixpoint insertByScore (x : Artist.t) (l : list Artist.t) : list Artist.t :=
  match l with
  | [] => [x]
  | y :: l' =>
      if Qle_bool (score_of y) (score_of x) then x :: y :: l'
      else y :: insertByScore x l'
  end.

(** [arr.sort((a, b) => b.score - a.score)]: descending and stable. *)
Definition sortByScore (arr : list Artist.t) : list Artist.t :=
  foldr insertByScore [] arr.

(** [recommendations.forEach(a => { if (!shown.includes(a.id)) shown.push(a.id) })] *)
Definition trackShown (shown : list Id) (recommendations : list Artist.t) : list Id :=
  foldl (λ acc artist,
           if includes acc (Artist.id artist) then acc
           else acc ++ [Artist.id artist])
        shown recommendations.

(** [if (shown.length > cap) shown = shown.slice(-cap)] *)
Definition keepLast (cap : nat) (shown : list Id) : list Id :=
  if (cap <? length shown)%nat then js_slice_from shown (- Z.of_nat cap)
  else shown.

Section Engine.

(** The values returned by the successive calls of [Math.random]. *)
Variable random : nat → Draw.

(** [[...arr].sort(() => Math.random() - 0.5)], from the number of calls
    of [Math.random] made before to the sorted copy and the number of
    calls made after. *)
Variable sortRandomly : nat → list Artist.t → list Artist.t * nat.

(** [arr.map(artist => ({...artist, score: calculateArtistScore(artist, p)}))]:
    the entry at index [i] gets the [i]-th draw after [calls]. *)
Definition scoreArtists (preferences : Preferences.t) (calls : nat)
    (arr : list Artist.t) : list Artist.t :=
  imap (λ i artist,
          with_score (calculateArtistScore artist preferences
                        (random (calls + i))) artist)
       arr.

(** The loop that moves up to [n] entries of [remaining], each at a random
    index, to the end of [recommendations]. *)
Fixpoint pickRandom (n : nat) (remaining recommendations : list Artist.t)
    (calls : nat) : list Artist.t * nat :=
  match n, remaining with
  | O, _ => (recommendations, calls)
  | S _, [] => (recommendations, calls)
  | S n', _ :: _ =>
      let randomIndex :=
        Z.to_nat (floor_mul (random calls) (Z.of_nat (length remaining))) in
      match remaining !! randomIndex with
      | Some picked =>
          pickRandom n' (delete randomIndex remaining)
                     (recommendations ++ [picked]) (S calls)
      | None => (recommendations, S calls)  (* not reached: the index is in range *)
      end
  end.

Definition selectRecommendations (app : MusicRecommender)
    (scoredArtists : list Artist.t) : list Artist.t * MusicRecommender :=
  let count := Z.min (recommendationCount app) (Z.of_nat (length scoredArtists)) in
  let freshArtists :=
    List.filter (λ artist, negb (includes (recentlyShown app) (Artist.id artist)))
                scoredArtists in
  let availableArtists :=
    if count <=? Z.of_nat (length freshArtists) then freshArtists
    else scoredArtists in
  let topCount := ceil_0_7 count in
  let randomCount := count - topCount in
  let recommendations := js_slice availableArtists 0 topCount in
  let remaining := js_slice_from availableArtists topCount in
  let '(recommendations, calls) :=
    pickRandom (Z.to_nat randomCount) remaining recommendations (randomCalls app) in
  let shown := keepLast 24 (trackShown (recentlyShown app) recommendations) in
  (recommendations, set_randomCalls calls (set_recentlyShown shown app)).

(** [fuel] bounds the depth of the recursive calls; [None] is a call that
    did not return within it. *)
Fixpoint getInitialBands (fuel : nat) (app : MusicRecommender)
    : option (list Artist.t * MusicRecommender) :=
  match fuel with
  | O => None
  | S fuel' =>
      let available := availableBands app in
      if Z.of_nat (length available) <? recommendationCount app then
        getInitialBands fuel' (set_recentlyShown [] app)
      else
        let '(shuffled, calls) := sortRandomly (randomCalls app) available in
        let selected := js_slice shuffled 0 (recommendationCount app) in
        let shown :=
          foldl (λ acc artist, acc ++ [Artist.id artist]) (recentlyShown app) selected in
        Some (selected, set_randomCalls calls (set_recentlyShown (keepLast 18 shown) app))
  end.

Definition generateRecommendations (fuel : nat) (app : MusicRecommender)
    : option MusicRecommender :=
  let rated := (map_to_list (userRatings app)).*1 in
  if (length rated =? 0)%nat then
    '(selected, app') ← getInitialBands fuel app;
    Some (set_currentRecommendations selected app')
  else
    let preferences := getUserPreferences app in
    let unrated := unratedArtists app in
    let scoredArtists := scoreArtists preferences (randomCalls app) unrated in
    let app1 := set_randomCalls (randomCalls app + length unrated) app in
    let sorted := sortByScore scoredArtists in
    let '(recommendations, app2) := selectRecommendations app1 sorted in
    Some (set_currentRecommendations recommendations app2).

(** The second half of [removeRecommendation]: one replacement is drawn
    and pushed, when there is a candidate for it.  [arr[i]] with [i] in
    range is the entry at [i]; the index drawn is always in range. *)
Definition drawReplacement (app : MusicRecommender) : MusicRecommender :=
  let rated := (map_to_list (userRatings app)).*1 in
  if (length rated =? 0)%nat then
    let available := availableReplacements app in
    if (0 <? length available)%nat then
      let randomIndex :=
        Z.to_nat (floor_mul (random (randomCalls app)) (Z.of_nat (length available))) in
      set_randomCalls (S (randomCalls app))
        (set_currentRecommendations
           (currentRecommendations app ++ option_list (available !! randomIndex)) app)
    else app
  else
    let preferences := getUserPreferences app in
    let unrated := unratedReplacements app in
    if (0 <? length unrated)%nat then
      let scoredArtists :=
        sortByScore (scoreArtists preferences (randomCalls app) unrated) in
      let calls := (randomCalls app + length unrated)%nat in
      let index :=
        Z.to_nat (floor_mul (random calls)
                    (Z.min 10 (Z.of_nat (length scoredArtists)))) in
      set_randomCalls (S calls)
        (set_currentRecommendations
           (currentRecommendations app ++ option_list (scoredArtists !! index)) app)
    else app.

Definition removeRecommendation (app : MusicRecommender) (artistId : Id)
    : MusicRecommender :=
  drawReplacement
    (set_currentRecommendations
       (List.filter (λ artist, negb (strict_eq (Artist.id artist) artistId))
                    (currentRecommendations app)) app).

Definition removeFromListenList (app : MusicRecommender) (artistId : Id)
    : MusicRecommender :=
  set_toListenList
    (List.filter (λ item, negb (strict_eq (ListenItem.id item) artistId))
                 (toListenList app)) app.

End Engine.

(** ** The other operations of the class *)

Definition set_artists (v : list Artist.t) (app : MusicRecommender) :=
  mkApp v (userRatings app) (toListenList app) (currentRecommendations app)
        (recentlyShown app) (recommendationCount app) (randomCalls app).

Definition set_userRatings (v : gmap string Rating.t) (app : MusicRecommender) :=
  mkApp (artists app) v (toListenList app) (currentRecommendations app)
        (recentlyShown app) (recommendationCount app) (randomCalls app).

(** [Object.keys(this.userRatings).length], the number shown as rated count
    and tested by [generateRecommendations] and [removeRecommendation]. *)
Definition ratedCount (app : MusicRecommender) : nat :=
  length (map_to_list (userRatings app)).*1.

(** [rateArtist(artistId, rating)]; [now] is the value of [Date.now()]. *)
Definition rateArtist (app : MusicRecommender) (artistId : Id) (rating now : Z)
    : MusicRecommender :=
  set_userRatings (<[ToString artistId := Rating.mk rating now]> (userRatings app)) app.

(** The entry [addCustomArtist] creates; [now] is the value of [Date.now()]
    and [year] the value of [new Date().getFullYear()]. *)
Definition customArtist (name : string) (now year : Z) : Artist.t :=
  Artist.mk (StrId ("custom_" ++ NilZero.string_of_int (Z.to_int now))) name
            ["user-added"%string] ["custom"%string] ["personal"%string]
            year "2020s" true None.

(** [calculateUniqueGenres()]: the size of the set of the genres of the
    rated artists that are found in the catalog. *)
Definition calculateUniqueGenres (app : MusicRecommender) : nat :=
  size (foldl (λ (genres : gset string) artistId,
                 match List.find (λ a, loose_eq (Artist.id a) artistId) (artists app) with
                 | Some artist =>
                     foldl (λ (s : gset string) genre, {[genre]} ∪ s) genres
                           (Artist.genres artist)
                 | None => genres
                 end)
              ∅ (map_to_list (userRatings app)).*1).

Section Operations.

Variable random : nat → Draw.
Variable sortRandomly : nat → list Artist.t → list Artist.t * nat.

(** [addCustomArtist(name, rating)]; [stamp] is the value of [Date.now()]
    in the call of [rateArtist]. *)
Definition addCustomArtist (fuel : nat) (app : MusicRecommender) (name : string)
    (rating now year stamp : Z) : option MusicRecommender :=
  let customArtist := customArtist name now year in
  let app := set_artists (artists app ++ [customArtist]) app in
  let app := rateArtist app (Artist.id customArtist) rating stamp in
  generateRecommendations random sortRandomly fuel app.

(** [clearStorage()]; [confirmed] is the answer to [confirm(...)]. *)
Definition clearStorage (fuel : nat) (app : MusicRecommender) (confirmed : bool)
    : option MusicRecommender :=
  if confirmed then
    generateRecommendations random sortRandomly fuel
      (set_currentRecommendations []
         (set_toListenList [] (set_userRatings ∅ app)))
  else Some app.

(** [addToListenList(artist)]; [now] is the value of [Date.now()]. *)
Definition addToListenList (app : MusicRecommender) (artist : Artist.t) (now : Z)
    : MusicRecommender :=
  if inToListen app (Artist.id artist) then app
  else
    let item :=
      ListenItem.mk (Artist.id artist) (Artist.name artist) (Artist.genres artist) now in
    removeRecommendation random
      (set_toListenList (toListenList app ++ [item]) app) (Artist.id artist).

(** [shuffleRecommendations()]. *)
Definition shuffleRecommendations (fuel : nat) (app : MusicRecommender)
    : option MusicRecommender :=
  generateRecommendations random sortRandomly fuel app.

End Operations.

(** ** The earlier revision of the class

    The second class of the file has no window of recently shown
    identifiers and no cold-start draw; its [selectRecommendations] and
    [generateRecommendations] are [legacy_selectRecommendations] and
    [legacy_generateRecommendations] here. *)

Section LegacyEngine.

Variable random : nat → Draw.

Definition legacy_selectRecommendations (app : MusicRecommender)
    (scoredArtists : list Artist.t) : list Artist.t * MusicRecommender :=
  let count := Z.min (recommendationCount app) (Z.of_nat (length scoredArtists)) in
  let topCount := ceil_0_7 count in
  let randomCount := count - topCount in
  let recommendations := js_slice scoredArtists 0 topCount in
  let remaining := js_slice_from scoredArtists topCount in
  let '(recommendations, calls) :=
    pickRandom random (Z.to_nat randomCount) remaining recommendations
               (randomCalls app) in
  (recommendations, set_randomCalls calls app).

Definition legacy_generateRecommendations (app : MusicRecommender)
    : MusicRecommender :=
  let rated := (map_to_list (userRatings app)).*1 in
  if (length rated =? 0)%nat then set_currentRecommendations [] app
  else
    let preferences := getUserPreferences app in
    let unrated := unratedArtists app in
    let scoredArtists := scoreArtists random preferences (randomCalls app) unrated in
    let app1 := set_randomCalls (randomCalls app + length unrated) app in
    let sorted := sortByScore scoredArtists in
    let '(recommendations, app2) := legacy_selectRecommendations app1 sorted in
    set_currentRecommendations recommendations app2.

End LegacyEngine.

(** ** The selection as the specification words it *)

(** Drawing up to [k] entries of [rest] without replacement, each at the
    index [floor (r * length rest)] for the next draw [r]. *)
Fixpoint spec_draw (random : nat → Draw) (k : nat) (rest : list Artist.t)
    (calls : nat) : list Artist.t :=
  match k with
  | O => []
  | S k' =>
      let i := Z.to_nat (Qfloor (draw_val (random calls) * inject_Z (Z.of_nat (length rest)))) in
      match rest !! i with
      | None => []
      | Some x => x :: spec_draw random k' (take i rest ++ drop (S i) rest) (S calls)
      end
  end.

(** The candidates absent from the window when there are at least [n] of
    them, all candidates otherwise. *)
Definition spec_pool (n : nat) (window : list Id) (candidates : list Artist.t)
    : list Artist.t :=
  let fresh := List.filter (λ c, negb (includes window (Artist.id c))) candidates in
  if (n <=? length fresh)%nat then fresh else candidates.

(** [n] is split into [top = ceil (0.7 n)] entries from the head of the pool
    and [n - top] entries drawn from the rest of it. *)
Definition spec_select (random : nat → Draw) (n : nat) (window : list Id)
    (candidates : list Artist.t) (calls : nat) : list Artist.t :=
  let pool := spec_pool n window candidates in
  let top := ((7 * n + 9) / 10)%nat in
  take top pool ++ spec_draw random (n - top) (drop top pool) calls.

(** The sum of the rating values of [entries] divided by their number, 0
    when there is none. *)
Definition meanRating (entries : list (string * Rating.t)) : Q :=
  let values : list Z := Rating.rating <$> entries.*2 in
  match values with
  | [] => 0%Q
  | _ => (inject_Z (foldr Z.add 0%Z values) / inject_Z (Z.of_nat (length values)))%Q
  end.

(** The mean over every entry of the rating mapping. *)
Definition spec_averageRating (ratings : gmap string Rating.t) : Q :=
  meanRating (map_to_list ratings).

(** Whether the [find] of [getUserPreferences] succeeds for an entry. *)
Definition foundInCatalog (catalog : list Artist.t) (entry : string * Rating.t) : bool :=
  existsb (λ a, loose_eq (Artist.id a) entry.1) catalog.

(** The sum of the weights a profile map gives to [tags]; a tag the map
    does not hold counts for 0. *)
Definition sumWeights (m : gmap string Z) (tags : list string) : Z :=
  foldr Z.add 0 (weight m <$> tags).

(** The candidates a replacement is drawn from in [removeRecommendation]. *)
Definition replacementPool (app : MusicRecommender) : list Artist.t :=
  if (length (map_to_list (userRatings app)).*1 =? 0)%nat
  then availableReplacements app
  else unratedReplacements app.

(** ** Measures used to state properties *)

(** How many times [tag] occurs in [tags]. *)
Definition occurrences (tag : string) (tags : list string) : nat :=
  length (filter (λ t, t = tag) tags).

(** What one rating entry adds to the weight of [tag]: the rating, once for
    every occurrence of [tag] among the tags [tagsOf] gives to the artist
    found for the entry, and nothing when no artist is found. *)
Definition tagCredit (catalog : list Artist.t) (tagsOf : Artist.t → list string)
    (tag : string) (entry : string * Rating.t) : Z :=
  match List.find (λ a, loose_eq (Artist.id a) entry.1) catalog with
  | Some artist => Rating.rating entry.2 * Z.of_nat (occurrences tag (tagsOf artist))
  | None => 0
  end.

(** The sum of the credits of all entries of the rating mapping. *)
Definition totalCredit (app : MusicRecommender) (tagsOf : Artist.t → list string)
    (tag : string) : Z :=
  foldr Z.add 0 (tagCredit (artists app) tagsOf tag <$> map_to_list (userRatings app)).

(** ** Sample data *)

Definition draw_0 : Draw := mkDraw 0 eq_refl.
Definition draw_half : Draw := mkDraw (1 # 2) eq_refl.

(** A source of randomness that always returns the same value. *)
Definition always (d : Draw) : nat → Draw := λ _, d.


Definition band (n : Z) (name genre : string) : Artist.t :=
  Artist.mk (NumId n) name [genre] [] [] 1970 "1970s" false None.

Definition scored (n : Z) (s : Z) : Artist.t :=
  Artist.mk (NumId n) "" [] [] [] 1970 "1970s" false (Some (inject_Z s)).

Definition rated (r : Z) : Rating.t := Rating.mk r 0.

(** The state built by the constructor, before any catalog is loaded;
    also the state after a failed load. *)
Definition freshApp : MusicRecommender := mkApp [] ∅ [] [] [] 6 0.

Definition withCatalog (catalog : list Artist.t) : MusicRecommender :=
  mkApp catalog ∅ [] [] [] 6 0.

(** An application that asks for [n] recommendations, with nothing loaded. *)
Definition withCount (n : Z) : MusicRecommender := mkApp [] ∅ [] [] [] n 0.

(** Five and seven bands of the cold-start pool. *)
Definition fiveBands : list Artist.t :=
  [ band 1 "The Beatles" "rock"; band 2 "Led Zeppelin" "rock";
    band 3 "Pink Floyd" "rock"; band 11 "The Rolling Stones" "rock";
    band 18 "Jimi Hendrix" "rock" ].



(** Five bands loaded, the first saved for later and the second displayed. *)
Definition savedApp : MusicRecommender :=
  mkApp fiveBands ∅
        [ListenItem.mk (NumId 1) "The Beatles" ["rock"%string] 0]
        [band 2 "Led Zeppelin" "rock"] [] 6 0.

(** Scored candidates [1 .. n] with scores [100 - 1 .. 100 - n]. *)
Definition candidates (n : nat) : list Artist.t :=
  (λ i, scored (Z.of_nat i) (100 - Z.of_nat i)) <$> seq 1 n.

(** The example of the specification: A and C carry "rock", B carries "pop". *)
Definition artistA : Artist.t :=
  Artist.mk (StrId "A") "A" ["rock"%string] [] [] 1970 "1970s" false None.
Definition artistB : Artist.t :=
  Artist.mk (StrId "B") "B" ["pop"%string] [] [] 1980 "1980s" false None.
Definition artistC : Artist.t :=
  Artist.mk (StrId "C") "C" ["rock"%string] [] [] 1990 "1990s" false None.

Definition exampleApp : MusicRecommender :=
  mkApp [artistA; artistB; artistC]
        (<["A"%string := rated 5]> (<["B"%string := rated 3]> ∅)) [] [] [] 6 0.

(** One rating for a catalog entry and one for an unknown identifier. *)
Definition strayRatingApp : MusicRecommender :=
  mkApp [band 1 "The Beatles" "rock"]
        (<["1"%string := rated 5]> (<["999"%string := rated 1]> ∅)) [] [] [] 6 0.

(** * Properties *)

(** ** JavaScript primitives *)

Lemma draw_bounds (r : Draw) : (0 <= draw_val r)%Q ∧ (draw_val r < 1)%Q.
Proof.
  destruct r as [v Hv]; simpl.
  apply andb_true_iff in Hv as [H0 H1].
  apply Qle_bool_iff in H0. split; [exact H0|].
  apply negb_true_iff in H1.
  destruct (Qlt_le_dec v 1) as [Hlt|Hge]; [exact Hlt|].
  apply Qle_bool_iff in Hge. congruence.
Qed.

(** [Math.floor(Math.random() * n)] is an index below [n]. *)
Lemma floor_mul_range (r : Draw) (n : Z) : 0 < n → 0 <= floor_mul r n < n.
Proof.
  intros Hn. destruct (draw_bounds r) as [H0 H1]. unfold floor_mul.
  assert (Hq : (inject_Z 0 < inject_Z n)%Q) by (rewrite <- Zlt_Qlt; exact Hn).
  split.
  - change 0 with (Qfloor (inject_Z 0)). apply Qfloor_resp_le.
    apply Qmult_le_0_compat; [exact H0 | apply Qlt_le_weak; exact Hq].
  - assert (Hlt : (draw_val r * inject_Z n < inject_Z n)%Q).
    { rewrite <- (Qmult_1_l (inject_Z n)) at 2.
      apply Qmult_lt_compat_r; assumption. }
    rewrite Zlt_Qlt. eapply Qle_lt_trans; [apply Qfloor_le | exact Hlt].
Qed.

Lemma floor_mul_lookup {A : Type} (r : Draw) (l : list A) :
  l ≠ [] → is_Some (l !! Z.to_nat (floor_mul r (Z.of_nat (length l)))).
Proof.
  intros Hl. apply lookup_lt_is_Some.
  assert (0 < Z.of_nat (length l)) by (destruct l; [done | simpl; lia]).
  pose proof (floor_mul_range r _ H). lia.
Qed.

Lemma js_slice_head {A : Type} (arr : list A) (k : Z) :
  0 <= k → js_slice arr 0 k = take (Z.to_nat k) arr.
Proof.
  intros Hk. unfold js_slice, relative_index.
  replace (0 <? 0) with false by reflexivity.
  replace (k <? 0) with false by (symmetry; apply Z.ltb_ge; lia).
  rewrite (Z.min_l 0) by lia. change (Z.to_nat 0) with 0%nat.
  rewrite drop_0, Z.sub_0_r.
  destruct (Z.min_spec k (Z.of_nat (length arr))) as [[? ->]|[? ->]]; [done|].
  rewrite Nat2Z.id. rewrite !firstn_all2; [done | lia | lia].
Qed.

Lemma js_slice_tail {A : Type} (arr : list A) (k : Z) :
  0 <= k → js_slice_from arr k = drop (Z.to_nat k) arr.
Proof.
  intros Hk. unfold js_slice_from, js_slice, relative_index.
  replace (k <? 0) with false by (symmetry; apply Z.ltb_ge; lia).
  replace (Z.of_nat (length arr) <? 0) with false by (symmetry; apply Z.ltb_ge; lia).
  rewrite Z.min_id.
  destruct (Z.min_spec k (Z.of_nat (length arr))) as [[? ->]|[? ->]].
  - apply firstn_all2. rewrite length_drop. lia.
  - rewrite Nat2Z.id, Z.sub_diag. simpl.
    rewrite !drop_ge; [done | lia | lia].
Qed.


(** A slice is a contiguous part of the array, whatever its arguments. *)
Lemma js_slice_sublist {A : Type} (arr : list A) (i j : Z) :
  js_slice arr i j `sublist_of` arr.
Proof.
  unfold js_slice. etrans; [apply sublist_take | apply sublist_drop].
Qed.



Lemma filter_sublist {A : Type} (f : A → bool) (l : list A) :
  List.filter f l `sublist_of` l.
Proof.
  induction l as [|x l IH]; simpl; [done|].
  destruct (f x); [by apply sublist_skip | by apply sublist_cons].
Qed.

Lemma submseteq_NoDup {A : Type} (l k : list A) :
  l ⊆+ k → NoDup k → NoDup l.
Proof.
  intros [k' Hk]%submseteq_Permutation. rewrite Hk.
  intros Hnd%NoDup_app. tauto.
Qed.

Lemma find_existsb {A : Type} (f : A → bool) (l : list A) :
  existsb f l = bool_decide (is_Some (List.find f l)).
Proof.
  induction l as [|x l IH]; simpl; [done|].
  destruct (f x); simpl; done.
Qed.

Lemma find_elem_of {A : Type} (f : A → bool) (l : list A) (x : A) :
  List.find f l = Some x → x ∈ l ∧ f x = true.
Proof.
  intros H. apply find_some in H as [Hin Hf]. split; [|done].
  by apply list_elem_of_In.
Qed.

(** ** getUserPreferences *)

Lemma tallyEntry_missing (catalog : list Artist.t) (acc : Tally)
    (entry : string * Rating.t) :
  foundInCatalog catalog entry = false → tallyEntry catalog acc entry = acc.
Proof.
  unfold foundInCatalog, tallyEntry. destruct entry as [artistId data]; simpl.
  rewrite find_existsb. intros H%bool_decide_eq_false.
  destruct (List.find _ catalog); [|done]. exfalso. eauto.
Qed.

Lemma tallyEntry_found (catalog : list Artist.t) (acc : Tally)
    (entry : string * Rating.t) :
  foundInCatalog catalog entry = true →
  totalRating (tallyEntry catalog acc entry) = totalRating acc + Rating.rating entry.2 ∧
  ratingCount (tallyEntry catalog acc entry) = ratingCount acc + 1.
Proof.
  unfold foundInCatalog, tallyEntry. destruct entry as [artistId data]; simpl.
  rewrite find_existsb. intros [a Ha]%bool_decide_eq_true. by rewrite Ha.
Qed.

(** *** The order of enumeration does not matter

    [Object.entries] yields the integer-like keys in ascending order and then
    the other keys in order of insertion; [map_to_list] has an order of its
    own.  The tally is the same for every order. *)

Lemma addWeight_comm (w1 w2 : Z) (m : gmap string Z) (k1 k2 : string) :
  addWeight w1 (addWeight w2 m k2) k1 = addWeight w2 (addWeight w1 m k1) k2.
Proof.
  apply map_eq. intros k. unfold addWeight, weight.
  rewrite !lookup_insert.
  repeat case_decide; simplify_eq; simpl; try done; f_equal; lia.
Qed.

Lemma foldl_addWeight_comm (w1 w2 : Z) (m : gmap string Z) (k : string)
    (tags : list string) :
  foldl (addWeight w1) (addWeight w2 m k) tags
  = addWeight w2 (foldl (addWeight w1) m tags) k.
Proof.
  revert m. induction tags as [|tag tags IH]; intros m; [done|].
  cbn [foldl]. by rewrite addWeight_comm, IH.
Qed.

Lemma foldl_foldl_addWeight (w1 w2 : Z) (m : gmap string Z)
    (tags1 tags2 : list string) :
  foldl (addWeight w1) (foldl (addWeight w2) m tags2) tags1
  = foldl (addWeight w2) (foldl (addWeight w1) m tags1) tags2.
Proof.
  revert m. induction tags2 as [|tag tags2 IH]; intros m; [done|].
  cbn [foldl]. by rewrite IH, foldl_addWeight_comm.
Qed.

Lemma tallyEntry_comm (catalog : list Artist.t) (acc : Tally)
    (e1 e2 : string * Rating.t) :
  tallyEntry catalog (tallyEntry catalog acc e1) e2
  = tallyEntry catalog (tallyEntry catalog acc e2) e1.
Proof.
  destruct e1 as [id1 d1], e2 as [id2 d2]. unfold tallyEntry.
  destruct (List.find _ catalog) as [a1|], (List.find _ catalog) as [a2|];
    try done.
  cbn [t_genres t_themes t_styles t_eras totalRating ratingCount].
  f_equal; try apply foldl_foldl_addWeight; try apply addWeight_comm; lia.
Qed.

Lemma foldl_tallyEntry_Permutation (catalog : list Artist.t)
    (l l' : list (string * Rating.t)) (acc : Tally) :
  l ≡ₚ l' → foldl (tallyEntry catalog) acc l = foldl (tallyEntry catalog) acc l'.
Proof.
  intros H. revert acc.
  induction H as [|e l l' _ IH|e1 e2 l|l l' l'' _ IH1 _ IH2];
    intros acc; cbn [foldl].
  - done.
  - apply IH.
  - by rewrite tallyEntry_comm.
  - by rewrite IH1.
Qed.

(** The tally over any enumeration of the entries of the mapping. *)
Lemma tallyRatings_any_order (app : MusicRecommender)
    (entries : list (string * Rating.t)) :
  entries ≡ₚ map_to_list (userRatings app) →
  foldl (tallyEntry (artists app)) (mkTally ∅ ∅ ∅ ∅ 0 0) entries = tallyRatings app.
Proof. apply foldl_tallyEntry_Permutation. Qed.

(** Only the entries whose artist is found reach [totalRating] and
    [ratingCount]. *)
Lemma tally_totals (catalog : list Artist.t) (l : list (string * Rating.t))
    (acc : Tally) :
  let found := List.filter (foundInCatalog catalog) l in
  totalRating (foldl (tallyEntry catalog) acc l)
    = totalRating acc + foldr Z.add 0 (Rating.rating <$> found.*2) ∧
  ratingCount (foldl (tallyEntry catalog) acc l)
    = ratingCount acc + Z.of_nat (length (Rating.rating <$> found.*2)).
Proof.
  revert acc. induction l as [|entry l IH]; intros acc; csimpl.
  - split; lia.
  - destruct (foundInCatalog catalog entry) eqn:E.
    + destruct (tallyEntry_found catalog acc entry E) as [Ht Hc].
      destruct (IH (tallyEntry catalog acc entry)) as [IHt IHc].
      rewrite IHt, IHc, Ht, Hc. csimpl. split; lia.
    + rewrite (tallyEntry_missing catalog acc entry E). apply IH.
Qed.

(** C1 (amended): the mean rating of the profile is the sum of the rating
    values divided by the number of entries, over the entries of the rating
    mapping whose identifier is found in the catalog; entries whose
    identifier is not in the catalog are left out of the sum and of the
    count, and the mean is 0 when no entry is found. *)
Theorem averageRating_over_found_entries (app : MusicRecommender) :
  Preferences.averageRating (getUserPreferences app) =
  meanRating (List.filter (foundInCatalog (artists app))
                          (map_to_list (userRatings app))).
Proof.
  unfold getUserPreferences, tallyRatings, meanRating; simpl.
  destruct (tally_totals (artists app) (map_to_list (userRatings app))
              (mkTally ∅ ∅ ∅ ∅ 0 0)) as [Ht Hc].
  simpl in Ht, Hc. rewrite Ht, Hc.
  destruct (Rating.rating <$> _) as [|v values]; [done|].
  replace (0 <? 0 + Z.of_nat (length (v :: values))) with true; [done|].
  symmetry. apply Z.ltb_lt. simpl. lia.
Qed.

(** C1, as stated, fails: with a rating of 5 for a catalog entry and a
    rating of 1 for an identifier the catalog does not hold, the profile's
    mean is 5 and not (5 + 1) / 2. *)
Lemma averageRating_skips_unknown_ids :
  Preferences.averageRating (getUserPreferences strayRatingApp) = 5%Q ∧
  ¬ (Preferences.averageRating (getUserPreferences strayRatingApp)
     == spec_averageRating (userRatings strayRatingApp))%Q.
Proof.
  split; [by vm_compute|].
  vm_compute. discriminate.
Qed.

(** ** calculateArtistScore *)

Lemma weight_missing (m : gmap string Z) (k : string) :
  m !! k = None → weight m k = 0.
Proof. intros H. unfold weight. by rewrite H. Qed.

(** A [forEach] that adds [weight * c] for every tag adds [c] times the sum
    of the weights. *)
Lemma foldl_weights (m : gmap string Z) (c : Z) (tags : list string) (score : Z) :
  foldl (λ s tag, s + weight m tag * c) score tags = score + c * sumWeights m tags.
Proof.
  revert score. induction tags as [|tag tags IH]; intros score; simpl.
  - unfold sumWeights; simpl. lia.
  - rewrite IH. unfold sumWeights; csimpl. lia.
Qed.

(** Only the tags the map holds count in a sum of weights. *)
Lemma sumWeights_present (m : gmap string Z) (tags : list string) :
  sumWeights m tags
  = sumWeights m (List.filter (λ tag, bool_decide (is_Some (m !! tag))) tags).
Proof.
  unfold sumWeights. induction tags as [|tag tags IH]; [done|].
  cbn [List.filter]. destruct (m !! tag) as [w|] eqn:E.
  - rewrite bool_decide_eq_true_2 by eauto. csimpl. by rewrite IH.
  - rewrite bool_decide_eq_false_2 by (intros [? ?]; congruence).
    csimpl. rewrite (weight_missing m tag E), IH. lia.
Qed.

Lemma similarity_formula (artist : Artist.t) (preferences : Preferences.t) :
  similarity artist preferences =
    3 * sumWeights (Preferences.genres preferences) (Artist.genres artist)
  + 2 * sumWeights (Preferences.themes preferences) (Artist.themes artist)
  + 2 * sumWeights (Preferences.styles preferences) (Artist.styles artist)
  + 1 * weight (Preferences.eras preferences) (Artist.era artist).
Proof. unfold similarity. rewrite !foldl_weights. lia. Qed.

(** C8: the score is 3 times the sum of the genre weights of the candidate's
    genres, plus 2 times the sum of the theme weights, plus 2 times the sum
    of the style weights, plus the weight of its era, plus the random term,
    which is 10 times a value of [0,1); a tag the profile does not hold
    contributes 0 (a sum of weights is the sum over the tags the profile
    holds); and for the ratings A:5 and B:3, with A and C carrying
    "rock" and B carrying "pop", the profile gives 5 to "rock" and 3 to
    "pop" and the genre component of C is 15. *)
Theorem calculateArtistScore_formula :
  (∀ (artist : Artist.t) (preferences : Preferences.t) (r : Draw),
     calculateArtistScore artist preferences r =
       (inject_Z
          (3 * sumWeights (Preferences.genres preferences) (Artist.genres artist)
           + 2 * sumWeights (Preferences.themes preferences) (Artist.themes artist)
           + 2 * sumWeights (Preferences.styles preferences) (Artist.styles artist)
           + 1 * weight (Preferences.eras preferences) (Artist.era artist))
        + draw_val r * 10)%Q
     ∧ (0 <= draw_val r * 10)%Q ∧ (draw_val r * 10 < 10)%Q) ∧
  (∀ (m : gmap string Z) (tags : list string),
     sumWeights m tags
     = sumWeights m (List.filter (λ tag, bool_decide (is_Some (m !! tag))) tags)) ∧
  Preferences.genres (getUserPreferences exampleApp) !! "rock"%string = Some 5 ∧
  Preferences.genres (getUserPreferences exampleApp) !! "pop"%string = Some 3 ∧
  3 * sumWeights (Preferences.genres (getUserPreferences exampleApp))
                 (Artist.genres artistC) = 15 ∧
  (∀ r : Draw,
     calculateArtistScore artistC (getUserPreferences exampleApp) r
     = (15 + draw_val r * 10)%Q).
Proof.
  split; [|split; [|split; [|split; [|split]]]].
  - intros artist preferences r. unfold calculateArtistScore.
    rewrite similarity_formula. split; [done|].
    destruct (draw_bounds r) as [H0 H1]. split.
    + apply Qmult_le_0_compat; [exact H0 | discriminate].
    + apply Qlt_le_trans with (1 * 10)%Q; [|discriminate].
      apply Qmult_lt_compat_r; [reflexivity | exact H1].
  - intros m tags. apply sumWeights_present.
  - by vm_compute.
  - by vm_compute.
  - by vm_compute.
  - intros r. unfold calculateArtistScore.
    replace (similarity artistC (getUserPreferences exampleApp)) with 15
      by (by vm_compute).
    reflexivity.
Qed.

(** ** Eligible candidates *)

Lemma includes_elem_of (arr : list Id) (x : Id) :
  includes arr x = true ↔ x ∈ arr.
Proof.
  unfold includes, strict_eq. rewrite existsb_exists. split.
  - intros (y & Hy & E). apply bool_decide_eq_true in E as ->.
    by apply list_elem_of_In.
  - intros H. exists x. split; [by apply list_elem_of_In|].
    by apply bool_decide_eq_true.
Qed.

Lemma isRated_false (app : MusicRecommender) (i : Id) :
  isRated app i = false ↔ ToString i ∉ dom (userRatings app).
Proof.
  unfold isRated. rewrite bool_decide_eq_false, elem_of_dom. done.
Qed.

Lemma inToListen_false (app : MusicRecommender) (i : Id) :
  inToListen app i = false ↔ i ∉ (ListenItem.id <$> toListenList app).
Proof.
  unfold inToListen, strict_eq. rewrite <- not_true_iff_false, existsb_exists.
  split; intros H Hin; apply H.
  - apply list_elem_of_fmap in Hin as (item & -> & Hitem).
    exists item. split; [by apply list_elem_of_In|]. by apply bool_decide_eq_true.
  - destruct Hin as (item & Hitem & E). apply bool_decide_eq_true in E as <-.
    apply list_elem_of_fmap. exists item. split; [done|]. by apply list_elem_of_In.
Qed.

Lemma unratedArtists_spec (app : MusicRecommender) (artist : Artist.t) :
  artist ∈ unratedArtists app ↔
  artist ∈ artists app ∧
  isRated app (Artist.id artist) = false ∧
  inToListen app (Artist.id artist) = false.
Proof.
  unfold unratedArtists.
  rewrite list_elem_of_In, filter_In, <- list_elem_of_In.
  rewrite andb_true_iff, !negb_true_iff. done.
Qed.

Lemma availableBands_spec (app : MusicRecommender) (artist : Artist.t) :
  artist ∈ availableBands app ↔
  artist ∈ getInitialBandsPool app ∧
  isRated app (Artist.id artist) = false ∧
  inToListen app (Artist.id artist) = false ∧
  Artist.id artist ∉ recentlyShown app.
Proof.
  unfold availableBands.
  rewrite list_elem_of_In, filter_In, <- list_elem_of_In.
  rewrite !andb_true_iff, !negb_true_iff, <- includes_elem_of.
  rewrite not_true_iff_false. tauto.
Qed.

(** C6: an artist among the eligible candidates of a cycle, on the scored
    path ([unratedArtists]) or on the cold-start path ([availableBands]),
    has an identifier that is not a key of the rating mapping and is not the
    identifier of a saved-for-later entry. *)
Theorem eligible_excludes_rated_and_saved (app : MusicRecommender)
    (artist : Artist.t) :
  artist ∈ unratedArtists app ∨ artist ∈ availableBands app →
  (ToString (Artist.id artist) ∉ dom (userRatings app)) ∧
  Artist.id artist ∉ (ListenItem.id <$> toListenList app).
Proof.
  rewrite unratedArtists_spec, availableBands_spec.
  rewrite <- isRated_false, <- inToListen_false. tauto.
Qed.

Lemma eligible_excludes_rated_and_saved_witness :
  (ToString (Artist.id artistC) ∉ dom (userRatings exampleApp)) ∧
  Artist.id artistC ∉ (ListenItem.id <$> toListenList exampleApp).
Proof.
  apply (eligible_excludes_rated_and_saved exampleApp artistC).
  left. apply list_elem_of_In. vm_compute. left. reflexivity.
Defined.

(** ** The cold-start draw *)

Lemma filter_length_mono {A : Type} (f g : A → bool) (l : list A) :
  (∀ x, f x = true → g x = true) →
  (length (List.filter f l) <= length (List.filter g l))%nat.
Proof.
  intros Hfg. induction l as [|x l IH]; simpl; [done|].
  destruct (f x) eqn:Ef.
  - rewrite (Hfg x Ef). simpl. lia.
  - destruct (g x); simpl; lia.
Qed.

(** The pool depends on the catalog only. *)
Lemma getInitialBandsPool_catalog (app app' : MusicRecommender) :
  artists app = artists app' → getInitialBandsPool app = getInitialBandsPool app'.
Proof. unfold getInitialBandsPool. by intros ->. Qed.

(** Clearing the window can only add candidates. *)
Lemma availableBands_cleared (app : MusicRecommender) :
  (length (availableBands app)
   <= length (availableBands (set_recentlyShown [] app)))%nat.
Proof.
  unfold availableBands.
  rewrite (getInitialBandsPool_catalog (set_recentlyShown [] app) app eq_refl).
  generalize (getInitialBandsPool app). intros pool.
  apply filter_length_mono.
  intros artist H. apply andb_true_iff in H as [H _].
  unfold isRated, inToListen in *. simpl. rewrite H. reflexivity.
Qed.

Section ColdStart.

Variable sortRandomly : nat → list Artist.t → list Artist.t * nat.

(** When fewer than [recommendationCount] entries of the pool are neither
    rated nor saved, the retry finds the same shortage again: no depth of
    recursion is enough for the call to return. *)
Lemma getInitialBands_never_returns (app : MusicRecommender) :
  Z.of_nat (length (availableBands (set_recentlyShown [] app)))
    < recommendationCount app →
  ∀ fuel, getInitialBands sortRandomly fuel app = None.
Proof.
  intros H fuel. revert app H.
  induction fuel as [|fuel IH]; intros app H; [done|].
  pose proof (availableBands_cleared app) as Hle.
  cbn [getInitialBands].
  destruct (Z.ltb_spec (Z.of_nat (length (availableBands app)))
                       (recommendationCount app)) as [_|Hge]; [|lia].
  apply IH. exact H.
Qed.

(** When at least [recommendationCount] entries of the pool are neither
    rated nor saved, the call returns after one retry at most. *)
Lemma getInitialBands_returns (app : MusicRecommender) (fuel : nat) :
  recommendationCount app
    <= Z.of_nat (length (availableBands (set_recentlyShown [] app))) →
  (2 <= fuel)%nat →
  is_Some (getInitialBands sortRandomly fuel app).
Proof.
  intros H Hfuel.
  destruct fuel as [|[|fuel]]; [lia | lia |].
  cbn [getInitialBands].
  destruct (Z.ltb_spec (Z.of_nat (length (availableBands app)))
                       (recommendationCount app)) as [_|_].
  - destruct (Z.ltb_spec
                (Z.of_nat (length (availableBands (set_recentlyShown [] app))))
                (recommendationCount (set_recentlyShown [] app))) as [Hlt|_].
    + simpl in Hlt. lia.
    + destruct (sortRandomly _ _). eauto.
  - destruct (sortRandomly _ _). eauto.
Qed.

(** C3, at an input where it fails: with five bands of the pool in the
    catalog and six recommendations asked for, nothing rated and nothing
    saved, the draw does not return, however deep the recursion goes. *)
Theorem getInitialBands_small_pool_never_returns (fuel : nat) :
  getInitialBands sortRandomly fuel (withCatalog fiveBands) = None.
Proof.
  apply getInitialBands_never_returns. vm_compute. reflexivity.
Qed.

End ColdStart.

(** ** The recommendation cycle over an empty catalog *)

Lemma js_slice_nil {A : Type} (i j : Z) : js_slice (@nil A) i j = [].
Proof. apply sublist_nil_r, js_slice_sublist. Qed.

Section Cycle.

Variable random : nat → Draw.
Variable sortRandomly : nat → list Artist.t → list Artist.t * nat.

Lemma pickRandom_nil (n : nat) (recommendations : list Artist.t) (calls : nat) :
  pickRandom random n [] recommendations calls = (recommendations, calls).
Proof. by destruct n. Qed.

Lemma selectRecommendations_nil (app : MusicRecommender) :
  (selectRecommendations random app []).1 = [].
Proof.
  unfold selectRecommendations. cbn [List.filter length].
  destruct (_ <=? _); unfold js_slice_from; rewrite !js_slice_nil;
    by rewrite pickRandom_nil.
Qed.

(** With no rating, the cycle is the cold-start draw. *)
Lemma generateRecommendations_cold (fuel : nat) (app : MusicRecommender) :
  userRatings app = ∅ →
  generateRecommendations random sortRandomly fuel app =
    '(selected, app') ← getInitialBands sortRandomly fuel app;
    Some (set_currentRecommendations selected app').
Proof.
  intros H. unfold generateRecommendations.
  by rewrite H, map_to_list_empty.
Qed.

(** With a rating and an empty catalog, the cycle returns and displays
    nothing. *)
Lemma generateRecommendations_empty_catalog_rated (fuel : nat)
    (app : MusicRecommender) :
  artists app = [] → userRatings app ≠ ∅ →
  ∃ app', generateRecommendations random sortRandomly fuel app = Some app' ∧
          currentRecommendations app' = [].
Proof.
  intros Hcat Hrated. unfold generateRecommendations.
  destruct (map_to_list (userRatings app)) as [|entry entries] eqn:E.
  { by apply map_to_list_empty_iff in E. }
  cbn [fmap list_fmap length Nat.eqb].
  unfold unratedArtists. rewrite Hcat. cbn [List.filter length].
  unfold scoreArtists. cbn [imap sortByScore foldr].
  pose proof (selectRecommendations_nil
                (set_randomCalls (randomCalls app + 0) app)) as Hsel.
  destruct (selectRecommendations random _ []) as [recommendations app2].
  simpl in Hsel. subst recommendations. eauto.
Qed.

(** C2, at an input where it fails: in the state left by a failed load of
    the catalog (no artist, no rating), the cycle enters the cold-start
    draw, which does not return, however deep the recursion goes. *)
Theorem generateRecommendations_failed_load_never_returns (fuel : nat) :
  generateRecommendations random sortRandomly fuel freshApp = None.
Proof.
  rewrite generateRecommendations_cold by reflexivity.
  rewrite getInitialBands_never_returns; [done|].
  vm_compute. reflexivity.
Qed.

End Cycle.

(** ** selectRecommendations *)

(** The head slice and the tail slice at the same index make up the array,
    also for a negative index. *)
Lemma js_slice_split {A : Type} (arr : list A) (k : Z) :
  js_slice arr 0 k ++ js_slice_from arr k = arr.
Proof.
  destruct (Z.ltb_spec k 0) as [Hneg|Hpos].
  - unfold js_slice_from, js_slice, relative_index.
    replace (k <? 0) with true by (symmetry; apply Z.ltb_lt; lia).
    replace (0 <? 0) with false by reflexivity.
    replace (Z.of_nat (length arr) <? 0) with false
      by (symmetry; apply Z.ltb_ge; lia).
    rewrite (Z.min_l 0) by lia. rewrite Z.min_id, Z.sub_0_r.
    change (Z.to_nat 0) with 0%nat. rewrite drop_0.
    set (m := Z.to_nat (Z.max (Z.of_nat (length arr) + k) 0)).
    rewrite (firstn_all2 (drop m arr)) by (rewrite length_drop; lia).
    apply take_drop.
  - rewrite js_slice_head, js_slice_tail by done. apply take_drop.
Qed.

Lemma ceil_0_7_nat (n : nat) :
  ceil_0_7 (Z.of_nat n) = Z.of_nat ((7 * n + 9) / 10).
Proof.
  unfold ceil_0_7. rewrite Nat2Z.inj_div.
  replace (Z.of_nat (7 * n + 9)) with (7 * Z.of_nat n + 9) by lia.
  change (Z.of_nat 10) with 10.
  Z.to_euclidean_division_equations. lia.
Qed.

Lemma ceil_0_7_le (n : nat) : ((7 * n + 9) / 10 <= n)%nat.
Proof.
  apply Nat2Z.inj_le. rewrite Nat2Z.inj_div.
  replace (Z.of_nat (7 * n + 9)) with (7 * Z.of_nat n + 9) by lia.
  change (Z.of_nat 10) with 10.
  Z.to_euclidean_division_equations. lia.
Qed.



Section Selection.

Variable random : nat → Draw.

(** The loop appends what the specification's drawing yields. *)
Lemma pickRandom_spec (n : nat) (remaining recommendations : list Artist.t)
    (calls : nat) :
  (pickRandom random n remaining recommendations calls).1
  = recommendations ++ spec_draw random n remaining calls.
Proof.
  revert remaining recommendations calls.
  induction n as [|n IH]; intros remaining recommendations calls.
  - destruct remaining; simpl; by rewrite app_nil_r.
  - destruct remaining as [|x remaining].
    + simpl. by rewrite app_nil_r.
    + cbn [pickRandom spec_draw]. unfold floor_mul.
      destruct ((x :: remaining) !! _) as [picked|] eqn:E.
      * rewrite IH, delete_take_drop, <- app_assoc. done.
      * simpl. by rewrite app_nil_r.
Qed.

(** The drawing takes entries of [rest], none of them twice. *)
Lemma spec_draw_submseteq (k : nat) (rest : list Artist.t) (calls : nat) :
  spec_draw random k rest calls ⊆+ rest.
Proof.
  revert rest calls. induction k as [|k IH]; intros rest calls; cbn [spec_draw].
  - apply submseteq_nil_l.
  - destruct (rest !! _) as [x|] eqn:E; [|apply submseteq_nil_l].
    set (i := Z.to_nat _) in *.
    trans (x :: (take i rest ++ drop (S i) rest)).
    + apply submseteq_skip, IH.
    + apply Permutation_submseteq.
      rewrite Permutation_middle. by rewrite take_drop_middle.
Qed.

(** It yields [k] entries, or all of [rest] when there are fewer. *)
Lemma spec_draw_length (k : nat) (rest : list Artist.t) (calls : nat) :
  length (spec_draw random k rest calls) = (k `min` length rest)%nat.
Proof.
  revert rest calls. induction k as [|k IH]; intros rest calls; [done|].
  destruct rest as [|x rest]; [done|].
  cbn [spec_draw].
  destruct (floor_mul_lookup (random calls) (x :: rest)) as [y Hy]; [done|].
  unfold floor_mul in Hy. rewrite Hy. cbn [length]. rewrite IH.
  apply lookup_lt_Some in Hy.
  rewrite length_app, length_take, length_drop. cbn [length] in *. lia.
Qed.

Lemma selectRecommendations_result (app : MusicRecommender)
    (scoredArtists : list Artist.t) :
  let count := Z.min (recommendationCount app) (Z.of_nat (length scoredArtists)) in
  let freshArtists :=
    List.filter (λ artist, negb (includes (recentlyShown app) (Artist.id artist)))
                scoredArtists in
  let availableArtists :=
    if count <=? Z.of_nat (length freshArtists) then freshArtists
    else scoredArtists in
  (selectRecommendations random app scoredArtists).1 =
    js_slice availableArtists 0 (ceil_0_7 count)
    ++ spec_draw random (Z.to_nat (count - ceil_0_7 count))
         (js_slice_from availableArtists (ceil_0_7 count)) (randomCalls app).
Proof.
  intros count freshArtists availableArtists. unfold selectRecommendations.
  fold count. fold freshArtists. fold availableArtists.
  pose proof (pickRandom_spec (Z.to_nat (count - ceil_0_7 count))
                (js_slice_from availableArtists (ceil_0_7 count))
                (js_slice availableArtists 0 (ceil_0_7 count))
                (randomCalls app)) as H.
  destruct (pickRandom _ _ _ _ _) as [recommendations calls].
  exact H.
Qed.

Lemma selectRecommendations_state (app : MusicRecommender)
    (scoredArtists : list Artist.t) :
  let result := selectRecommendations random app scoredArtists in
  artists result.2 = artists app ∧
  userRatings result.2 = userRatings app ∧
  toListenList result.2 = toListenList app ∧
  currentRecommendations result.2 = currentRecommendations app ∧
  recommendationCount result.2 = recommendationCount app ∧
  recentlyShown result.2 = keepLast 24 (trackShown (recentlyShown app) result.1).
Proof.
  unfold selectRecommendations.
  destruct (pickRandom _ _ _ _ _) as [recommendations calls]. done.
Qed.

Lemma slice_draw_submseteq (available : list Artist.t) (k : Z) (n calls : nat) :
  js_slice available 0 k ++ spec_draw random n (js_slice_from available k) calls
    ⊆+ available.
Proof.
  trans (js_slice available 0 k ++ js_slice_from available k).
  - apply submseteq_app; [done | apply spec_draw_submseteq].
  - by rewrite js_slice_split.
Qed.

Lemma selectRecommendations_submseteq (app : MusicRecommender)
    (scoredArtists : list Artist.t) :
  (selectRecommendations random app scoredArtists).1 ⊆+ scoredArtists.
Proof.
  rewrite selectRecommendations_result.
  etrans; [apply slice_draw_submseteq|].
  destruct (_ <=? _); [|done].
  apply sublist_submseteq, filter_sublist.
Qed.

End Selection.

(** C5 (amended): when the requested count is 0 or -1, the selection
    returns an empty list, whatever the scored candidates are. *)
Theorem selectRecommendations_count_0_or_minus_1 (random : nat → Draw)
    (app : MusicRecommender) (scoredArtists : list Artist.t) :
  -1 <= recommendationCount app <= 0 →
  (selectRecommendations random app scoredArtists).1 = [].
Proof.
  intros HN. rewrite selectRecommendations_result.
  assert (Hcount : Z.min (recommendationCount app) (Z.of_nat (length scoredArtists)) = 0
                 ∨ Z.min (recommendationCount app) (Z.of_nat (length scoredArtists)) = -1)
    by lia.
  destruct Hcount as [-> | ->].
  - change (ceil_0_7 0) with 0. rewrite js_slice_head by done. done.
  - change (ceil_0_7 (-1)) with 0. rewrite js_slice_head by done. done.
Qed.

Lemma selectRecommendations_count_0_or_minus_1_witness :
  (selectRecommendations (always draw_half) (withCount 0) (candidates 3)).1 = [].
Proof.
  apply (selectRecommendations_count_0_or_minus_1
           (always draw_half) (withCount 0) (candidates 3)).
  simpl. lia.
Defined.

(** C5, as stated, fails: with a requested count of -2 and three scored
    candidates, the selection returns the first two of them. *)
Lemma selectRecommendations_negative_count_nonempty :
  recommendationCount (withCount (-2)) <= 0 ∧
  Artist.id <$> (selectRecommendations (always draw_half) (withCount (-2))
                   (candidates 3)).1 = [NumId 1; NumId 2] ∧
  (selectRecommendations (always draw_half) (withCount (-2)) (candidates 3)).1 ≠ [].
Proof.
  split; [simpl; lia|]. split; [by vm_compute|].
  vm_compute. discriminate.
Qed.

(** For a count that is not negative the code splits the smaller of the
    count and the number of candidates, the way the specification words the
    split. *)
Lemma selectRecommendations_spec_select (random : nat → Draw)
    (app : MusicRecommender) (scoredArtists : list Artist.t) :
  0 <= recommendationCount app →
  (selectRecommendations random app scoredArtists).1 =
    spec_select random
      (Z.to_nat (recommendationCount app) `min` length scoredArtists)
      (recentlyShown app) scoredArtists (randomCalls app).
Proof.
  intros HN. rewrite selectRecommendations_result.
  set (n := (Z.to_nat (recommendationCount app) `min` length scoredArtists)%nat).
  replace (Z.min (recommendationCount app) (Z.of_nat (length scoredArtists)))
    with (Z.of_nat n) by lia.
  rewrite ceil_0_7_nat.
  pose proof (ceil_0_7_le n) as Htop.
  rewrite js_slice_head, js_slice_tail by lia. rewrite Nat2Z.id.
  replace (Z.to_nat (Z.of_nat n - Z.of_nat ((7 * n + 9) / 10)))
    with (n - (7 * n + 9) / 10)%nat by lia.
  unfold spec_select, spec_pool.
  destruct (Z.leb_spec (Z.of_nat n) (Z.of_nat (length (List.filter
              (λ artist, negb (includes (recentlyShown app) (Artist.id artist)))
              scoredArtists)))) as [Hle|Hgt].
  - replace (n <=? _)%nat with true by (symmetry; apply Nat.leb_le; lia). done.
  - replace (n <=? _)%nat with false by (symmetry; apply Nat.leb_gt; lia). done.
Qed.

(** C9 (amended): for a requested count N that is not negative, the count
    that is split is c = min (N, number of scored candidates): the selection
    takes top = ceil (0.7 c) entries from the head of the pool (the
    candidates absent from the window when there are at least c of them, all
    candidates otherwise) and then c - top entries drawn at random indices,
    without replacement, from the rest of the pool, until they are collected
    or the rest is empty.  With N = 6 and at least 10 candidates whose
    identifiers are distinct, it returns exactly 6 entries with no duplicate
    identifier. *)
Theorem selectRecommendations_split (random : nat → Draw)
    (app : MusicRecommender) (scoredArtists : list Artist.t) :
  0 <= recommendationCount app →
  (selectRecommendations random app scoredArtists).1 =
    spec_select random
      (Z.to_nat (recommendationCount app) `min` length scoredArtists)
      (recentlyShown app) scoredArtists (randomCalls app)
  ∧ (recommendationCount app = 6 →
     (10 <= length scoredArtists)%nat →
     NoDup (Artist.id <$> scoredArtists) →
     length (selectRecommendations random app scoredArtists).1 = 6%nat ∧
     NoDup (Artist.id <$> (selectRecommendations random app scoredArtists).1)).
Proof.
  intros HN.
  pose proof (selectRecommendations_spec_select random app scoredArtists HN)
    as Hsplit.
  split; [exact Hsplit|].
  intros H6 Hlen Hnodup. split.
  - rewrite Hsplit, H6.
    replace (Z.to_nat 6 `min` length scoredArtists)%nat with 6%nat by lia.
    unfold spec_select. change ((7 * 6 + 9) / 10)%nat with 5%nat.
    assert (Hpool : (6 <= length (spec_pool 6 (recentlyShown app) scoredArtists))%nat).
    { unfold spec_pool. destruct (Nat.leb_spec 6 (length (List.filter
          (λ c, negb (includes (recentlyShown app) (Artist.id c)))
          scoredArtists))); lia. }
    rewrite length_app, length_take, spec_draw_length, length_drop. lia.
  - eapply submseteq_NoDup; [|exact Hnodup].
    apply fmap_submseteq, selectRecommendations_submseteq.
Qed.

Lemma selectRecommendations_split_witness :
  (selectRecommendations (always draw_half) (withCount 6) (candidates 10)).1 =
    spec_select (always draw_half) 6 [] (candidates 10) 0 ∧
  length (selectRecommendations (always draw_half) (withCount 6) (candidates 10)).1
    = 6%nat ∧
  NoDup (Artist.id <$>
           (selectRecommendations (always draw_half) (withCount 6) (candidates 10)).1).
Proof.
  destruct (selectRecommendations_split (always draw_half) (withCount 6)
              (candidates 10)) as [Hsplit Hsix].
  - simpl. lia.
  - split; [exact Hsplit|]. apply Hsix.
    + reflexivity.
    + simpl. lia.
    + apply (bool_decide_unpack _). vm_compute. reflexivity.
Defined.

(** C9, as stated, fails: with a requested count of 8 and seven candidates,
    the code splits 7 into 5 + 2 and draws the last two entries at random
    (here the seventh before the sixth), where a split of 8 into 6 + 2
    takes the first six entries in order and then the only one left. *)
Lemma selectRecommendations_splits_count_not_N :
  Artist.id <$> (selectRecommendations (always draw_half) (withCount 8)
                   (candidates 7)).1
    = NumId <$> [1; 2; 3; 4; 5; 7; 6] ∧
  Artist.id <$> spec_select (always draw_half) 8 [] (candidates 7) 0
    = NumId <$> [1; 2; 3; 4; 5; 6; 7] ∧
  (selectRecommendations (always draw_half) (withCount 8) (candidates 7)).1
    ≠ spec_select (always draw_half) 8 (recentlyShown (withCount 8))
        (candidates 7) (randomCalls (withCount 8)).
Proof.
  split; [by vm_compute|]. split; [by vm_compute|].
  intros H. apply (f_equal (fmap Artist.id)) in H.
  vm_compute in H. discriminate H.
Qed.

(** C10: the entries returned by the selection are entries of the scored
    list it was given, each taken at most once, and of the state only the
    window of recently shown identifiers (and the position in the source of
    randomness) changes: the catalog, the rating history, the saved list,
    the displayed list and the requested count are as before. *)
Theorem selectRecommendations_frame (random : nat → Draw)
    (app : MusicRecommender) (scoredArtists : list Artist.t) :
  (selectRecommendations random app scoredArtists).1 ⊆+ scoredArtists ∧
  artists (selectRecommendations random app scoredArtists).2 = artists app ∧
  userRatings (selectRecommendations random app scoredArtists).2 = userRatings app ∧
  toListenList (selectRecommendations random app scoredArtists).2 = toListenList app ∧
  currentRecommendations (selectRecommendations random app scoredArtists).2
    = currentRecommendations app ∧
  recommendationCount (selectRecommendations random app scoredArtists).2
    = recommendationCount app.
Proof.
  split; [apply selectRecommendations_submseteq|].
  pose proof (selectRecommendations_state random app scoredArtists) as H.
  cbv zeta in H. tauto.
Qed.

(** ** The split for the count the application uses *)

Lemma filter_full {A : Type} (f : A → bool) (l : list A) :
  (length l <= length (List.filter f l))%nat → List.filter f l = l.
Proof.
  induction l as [|x l IH]; simpl; [done|].
  destruct (f x); simpl; intros H.
  - f_equal. apply IH. lia.
  - pose proof (sublist_length _ _ (filter_sublist f l)). lia.
Qed.

Lemma spec_pool_short (n : nat) (window : list Id) (candidates : list Artist.t) :
  (length candidates <= n)%nat → spec_pool n window candidates = candidates.
Proof.
  intros H. unfold spec_pool.
  destruct (Nat.leb_spec n (length (List.filter
              (λ c, negb (includes window (Artist.id c))) candidates)));
    [|done].
  apply filter_full. lia.
Qed.

Lemma spec_draw_short (random : nat → Draw) (k : nat) (rest : list Artist.t)
    (calls : nat) :
  (length rest <= 1)%nat → (length rest <= k)%nat →
  spec_draw random k rest calls = rest.
Proof.
  destruct rest as [|x [|y rest]]; simpl; intros H1 Hk; [by destruct k| |lia].
  destruct k as [|k]; [lia|]. cbn [spec_draw length].
  pose proof (floor_mul_range (random calls) 1 ltac:(lia)) as Hr.
  unfold floor_mul in Hr. change (Z.of_nat 1) with 1.
  replace (Qfloor (draw_val (random calls) * inject_Z 1)) with 0 by lia.
  simpl. by destruct k.
Qed.

(** With the count 6 of the application the split of min (6, number of
    candidates) and the split of 6 select the same entries. *)
Lemma selectRecommendations_split_six (random : nat → Draw)
    (app : MusicRecommender) (scoredArtists : list Artist.t) :
  recommendationCount app = 6 →
  (selectRecommendations random app scoredArtists).1 =
    spec_select random 6 (recentlyShown app) scoredArtists (randomCalls app).
Proof.
  intros H6.
  rewrite selectRecommendations_spec_select by lia.
  rewrite H6. change (Z.to_nat 6) with 6%nat.
  destruct (Nat.le_gt_cases 6 (length scoredArtists)) as [Hge|Hlt].
  { by rewrite Nat.min_l. }
  rewrite Nat.min_r by lia. unfold spec_select.
  rewrite !spec_pool_short by lia.
  change ((7 * 6 + 9) / 10)%nat with 5%nat. change (6 - 5)%nat with 1%nat.
  rewrite (take_ge scoredArtists 5) by lia.
  rewrite (drop_ge scoredArtists 5) by lia.
  rewrite app_nil_r.
  set (n := length scoredArtists) in *.
  assert (Htop : (n - (7 * n + 9) / 10 <= 1 ∧ (7 * n + 9) / 10 <= n)%nat).
  { assert (Hn : (n = 0 ∨ n = 1 ∨ n = 2 ∨ n = 3 ∨ n = 4 ∨ n = 5)%nat) by lia.
    destruct Hn as [->|[->|[->|[->|[->| ->]]]]];
      split; apply Nat.leb_le; reflexivity. }
  rewrite spec_draw_short; [apply take_drop | |]; rewrite length_drop; lia.
Qed.

(** ** The window of recently shown identifiers *)



Lemma drawReplacement_recentlyShown (random : nat → Draw) (app : MusicRecommender) :
  recentlyShown (drawReplacement random app) = recentlyShown app.
Proof.
  unfold drawReplacement. by repeat destruct (_ : bool).
Qed.



(** ** Sorting, scoring and removing entries that are not there *)

Lemma insertByScore_Permutation (x : Artist.t) (l : list Artist.t) :
  insertByScore x l ≡ₚ x :: l.
Proof.
  induction l as [|y l IH]; simpl; [done|].
  destruct (Qle_bool _ _); [done|]. rewrite IH. apply perm_swap.
Qed.

Lemma sortByScore_Permutation (arr : list Artist.t) : sortByScore arr ≡ₚ arr.
Proof.
  induction arr as [|x arr IH]; [done|].
  unfold sortByScore in *. cbn [foldr].
  rewrite insertByScore_Permutation. by rewrite IH.
Qed.

Lemma insertByScore_elem_of (x y : Artist.t) (l : list Artist.t) :
  y ∈ insertByScore x l ↔ y = x ∨ y ∈ l.
Proof.
  induction l as [|z l IH]; simpl.
  - rewrite list_elem_of_singleton, elem_of_nil. tauto.
  - destruct (Qle_bool _ _).
    + by rewrite elem_of_cons.
    + rewrite !elem_of_cons, IH. tauto.
Qed.

Lemma insertByScore_sorted (x : Artist.t) (l : list Artist.t) :
  StronglySorted (λ a b, (score_of b <= score_of a)%Q) l →
  StronglySorted (λ a b, (score_of b <= score_of a)%Q) (insertByScore x l).
Proof.
  induction 1 as [|y l Hsorted IH Hall]; simpl.
  - repeat constructor.
  - destruct (Qle_bool (score_of y) (score_of x)) eqn:E.
    + apply Qle_bool_iff in E. constructor; [by constructor|].
      constructor; [exact E|].
      eapply Forall_impl; [exact Hall|]. intros z Hz. simpl in Hz.
      by eapply Qle_trans.
    + constructor; [exact IH|].
      apply Forall_forall. intros z [->|Hz]%insertByScore_elem_of.
      * destruct (Qlt_le_dec (score_of y) (score_of x)) as [Hlt|Hle]; [|done].
        apply Qlt_le_weak, Qle_bool_iff in Hlt. congruence.
      * by eapply Forall_forall in Hall.
Qed.

(** The result of the sort is in descending order of score. *)
Lemma sortByScore_sorted (arr : list Artist.t) :
  StronglySorted (λ a b, (score_of b <= score_of a)%Q) (sortByScore arr).
Proof.
  induction arr as [|x arr IH]; [constructor|].
  apply insertByScore_sorted, IH.
Qed.

Lemma imap_ids (f : nat → Artist.t → Artist.t) (l : list Artist.t) :
  (∀ i a, Artist.id (f i a) = Artist.id a) →
  Artist.id <$> imap f l = Artist.id <$> l.
Proof.
  revert f. induction l as [|x l IH]; intros f Hf; [done|].
  csimpl. rewrite Hf. f_equal. apply IH. intros i a. apply Hf.
Qed.

(** Scoring and sorting keep the identifiers, up to their order. *)
Lemma scored_sorted_ids (random : nat → Draw) (preferences : Preferences.t)
    (calls : nat) (arr : list Artist.t) :
  Artist.id <$> sortByScore (scoreArtists random preferences calls arr)
  ≡ₚ Artist.id <$> arr.
Proof.
  rewrite sortByScore_Permutation. unfold scoreArtists.
  by rewrite imap_ids.
Qed.

Lemma filter_absent {A : Type} (f : A → Id) (l : list A) (i : Id) :
  i ∉ f <$> l → List.filter (λ x, negb (strict_eq (f x) i)) l = l.
Proof.
  induction l as [|x l IH]; csimpl; [done|].
  intros [Hx Hl]%not_elem_of_cons. unfold strict_eq at 1.
  rewrite bool_decide_eq_false_2 by done. simpl. by rewrite IH.
Qed.

Lemma set_currentRecommendations_same (app : MusicRecommender) :
  set_currentRecommendations (currentRecommendations app) app = app.
Proof. by destruct app. Qed.

Lemma set_toListenList_same (app : MusicRecommender) :
  set_toListenList (toListenList app) app = app.
Proof. by destruct app. Qed.

(** The replacement step pushes one entry of the replacement pool (scored,
    when something is rated) when the pool is not empty, and nothing when it
    is; the catalog, the ratings and the saved list are as before. *)
Lemma drawReplacement_spec (random : nat → Draw) (app : MusicRecommender) :
  artists (drawReplacement random app) = artists app ∧
  userRatings (drawReplacement random app) = userRatings app ∧
  toListenList (drawReplacement random app) = toListenList app ∧
  ∃ replacement,
    currentRecommendations (drawReplacement random app)
      = currentRecommendations app ++ replacement ∧
    (length replacement <= 1)%nat ∧
    (replacement = [] ↔ replacementPool app = []) ∧
    Artist.id <$> replacement ⊆ Artist.id <$> replacementPool app.
Proof.
  unfold drawReplacement, replacementPool.
  destruct (length _ =? 0)%nat.
  - destruct (availableReplacements app) as [|x pool] eqn:Epool.
    + cbn [length Nat.ltb Nat.leb]. repeat split; try done.
      exists []. rewrite app_nil_r. repeat split; simpl; (done || lia).
    + cbn [length Nat.ltb Nat.leb]. repeat split; try done.
      destruct (floor_mul_lookup (random (randomCalls app)) (x :: pool))
        as [a Ha]; [done|].
      cbn [length] in Ha. exists [a]. cbn [currentRecommendations
        set_randomCalls set_currentRecommendations].
      rewrite Ha. repeat split; try done.
      intros i ->%list_elem_of_singleton. apply list_elem_of_fmap.
      exists a. split; [done|]. by eapply list_elem_of_lookup_2.
  - destruct (unratedReplacements app) as [|x pool] eqn:Epool.
    + cbn [length Nat.ltb Nat.leb]. repeat split; try done.
      exists []. rewrite app_nil_r. repeat split; simpl; (done || lia).
    + cbn [Nat.ltb Nat.leb length]. repeat split; try done.
      set (scoredArtists := sortByScore _).
      assert (Hids : Artist.id <$> scoredArtists ≡ₚ Artist.id <$> x :: pool)
        by apply scored_sorted_ids.
      assert (Hlen : length scoredArtists = S (length pool)).
      { apply Permutation_length in Hids. by rewrite !length_fmap in Hids. }
      assert (Hlookup : is_Some (scoredArtists !! Z.to_nat
                (floor_mul (random (randomCalls app + S (length pool))%nat)
                   (Z.min 10 (Z.of_nat (length scoredArtists)))))).
      { apply lookup_lt_is_Some.
        pose proof (floor_mul_range (random (randomCalls app + S (length pool))%nat)
                      (Z.min 10 (Z.of_nat (length scoredArtists)))).
        lia. }
      destruct Hlookup as [a Ha]. exists [a].
      cbn [currentRecommendations set_randomCalls set_currentRecommendations].
      rewrite Ha. repeat split; try done.
      intros i ->%list_elem_of_singleton. rewrite <- Hids.
      apply list_elem_of_fmap. exists a. split; [done|].
      by eapply list_elem_of_lookup_2.
Qed.

(** C4 (amended): removing a saved-for-later entry whose identifier is not
    in the saved list leaves the whole state as it is.  Removing a
    recommendation whose identifier is not displayed leaves the catalog, the
    rating history and the saved list as they are, and still draws a
    replacement: the displayed list is unchanged when the replacement pool is
    empty, and otherwise gets one more entry at its end, taken from the
    pool. *)
Theorem removing_absent_entries (random : nat → Draw) (app : MusicRecommender)
    (artistId : Id) :
  (artistId ∉ ListenItem.id <$> toListenList app →
   removeFromListenList app artistId = app) ∧
  (artistId ∉ Artist.id <$> currentRecommendations app →
   artists (removeRecommendation random app artistId) = artists app ∧
   userRatings (removeRecommendation random app artistId) = userRatings app ∧
   toListenList (removeRecommendation random app artistId) = toListenList app ∧
   ∃ replacement,
     currentRecommendations (removeRecommendation random app artistId)
       = currentRecommendations app ++ replacement ∧
     (length replacement <= 1)%nat ∧
     (replacement = [] ↔ replacementPool app = []) ∧
     Artist.id <$> replacement ⊆ Artist.id <$> replacementPool app).
Proof.
  split.
  - intros H. unfold removeFromListenList.
    rewrite (filter_absent ListenItem.id) by done.
    apply set_toListenList_same.
  - intros H. unfold removeRecommendation.
    rewrite (filter_absent Artist.id) by done.
    rewrite set_currentRecommendations_same.
    apply drawReplacement_spec.
Qed.

Lemma removing_absent_entries_witness :
  removeFromListenList savedApp (NumId 999) = savedApp ∧
  ∃ replacement,
    currentRecommendations (removeRecommendation (always draw_half) savedApp (NumId 999))
      = currentRecommendations savedApp ++ replacement ∧
    (length replacement <= 1)%nat.
Proof.
  destruct (removing_absent_entries (always draw_half) savedApp (NumId 999))
    as [Hsaved Hshown].
  split.
  - apply Hsaved. apply (bool_decide_unpack _). vm_compute. reflexivity.
  - destruct Hshown as (_ & _ & _ & replacement & E & Hlen & _).
    + apply (bool_decide_unpack _). vm_compute. reflexivity.
    + exists replacement. split; [exact E | exact Hlen].
Defined.

(** C4, as stated, fails: removing a recommendation that is not displayed
    is not a no-op, a replacement is displayed all the same. *)
Lemma removeRecommendation_absent_adds_replacement :
  (NumId 999 ∉ Artist.id <$> currentRecommendations savedApp) ∧
  Artist.id <$> currentRecommendations savedApp = [NumId 2] ∧
  Artist.id <$> currentRecommendations
                  (removeRecommendation (always draw_half) savedApp (NumId 999))
    = [NumId 2; NumId 11] ∧
  currentRecommendations (removeRecommendation (always draw_half) savedApp (NumId 999))
    ≠ currentRecommendations savedApp.
Proof.
  split; [apply (bool_decide_unpack _); by vm_compute|].
  split; [by vm_compute|]. split; [by vm_compute|].
  intros H. apply (f_equal length) in H. vm_compute in H. discriminate H.
Qed.

(** * Further properties of the operations *)

(** ** The profile in closed form *)

Lemma weight_addWeight (w : Z) (m : gmap string Z) (k k' : string) :
  weight (addWeight w m k) k' = weight m k' + (if decide (k' = k) then w else 0).
Proof.
  unfold addWeight, weight. rewrite lookup_insert.
  repeat case_decide; simplify_eq; simpl; lia.
Qed.

Lemma weight_foldl_addWeight (w : Z) (tags : list string) (m : gmap string Z)
    (k : string) :
  weight (foldl (addWeight w) m tags) k
  = weight m k + w * Z.of_nat (occurrences k tags).
Proof.
  revert m. induction tags as [|tag tags IH]; intros m; cbn [foldl].
  - unfold occurrences. simpl. lia.
  - rewrite IH, weight_addWeight. unfold occurrences.
    rewrite filter_cons. case_decide; simplify_eq.
    + rewrite decide_True by done. cbn [length]. lia.
    + rewrite decide_False by done. lia.
Qed.

Lemma tallyEntry_weights (catalog : list Artist.t) (acc : Tally)
    (entry : string * Rating.t) (tag : string) :
  weight (t_genres (tallyEntry catalog acc entry)) tag
    = weight (t_genres acc) tag + tagCredit catalog Artist.genres tag entry ∧
  weight (t_themes (tallyEntry catalog acc entry)) tag
    = weight (t_themes acc) tag + tagCredit catalog Artist.themes tag entry ∧
  weight (t_styles (tallyEntry catalog acc entry)) tag
    = weight (t_styles acc) tag + tagCredit catalog Artist.styles tag entry ∧
  weight (t_eras (tallyEntry catalog acc entry)) tag
    = weight (t_eras acc) tag + tagCredit catalog (λ a, [Artist.era a]) tag entry.
Proof.
  unfold tallyEntry, tagCredit. destruct entry as [artistId data]. cbn [fst snd].
  destruct (List.find _ catalog) as [artist|].
  - cbn [t_genres t_themes t_styles t_eras].
    rewrite !weight_foldl_addWeight.
    change (addWeight (Rating.rating data) (t_eras acc) (Artist.era artist))
      with (foldl (addWeight (Rating.rating data)) (t_eras acc) [Artist.era artist]).
    rewrite weight_foldl_addWeight. done.
  - repeat split; lia.
Qed.

Lemma foldl_tallyEntry_weights (catalog : list Artist.t)
    (entries : list (string * Rating.t)) (acc : Tally) (tag : string) :
  weight (t_genres (foldl (tallyEntry catalog) acc entries)) tag
    = weight (t_genres acc) tag
      + foldr Z.add 0 (tagCredit catalog Artist.genres tag <$> entries) ∧
  weight (t_themes (foldl (tallyEntry catalog) acc entries)) tag
    = weight (t_themes acc) tag
      + foldr Z.add 0 (tagCredit catalog Artist.themes tag <$> entries) ∧
  weight (t_styles (foldl (tallyEntry catalog) acc entries)) tag
    = weight (t_styles acc) tag
      + foldr Z.add 0 (tagCredit catalog Artist.styles tag <$> entries) ∧
  weight (t_eras (foldl (tallyEntry catalog) acc entries)) tag
    = weight (t_eras acc) tag
      + foldr Z.add 0 (tagCredit catalog (λ a, [Artist.era a]) tag <$> entries).
Proof.
  revert acc. induction entries as [|entry entries IH]; intros acc.
  - csimpl. repeat split; lia.
  - cbn [foldl]. csimpl.
    destruct (IH (tallyEntry catalog acc entry)) as (-> & -> & -> & ->).
    destruct (tallyEntry_weights catalog acc entry tag) as (-> & -> & -> & ->).
    repeat split; lia.
Qed.

(** The weights of the tally in closed form. *)
Lemma tallyRatings_weights (app : MusicRecommender) (tag : string) :
  weight (t_genres (tallyRatings app)) tag = totalCredit app Artist.genres tag ∧
  weight (t_themes (tallyRatings app)) tag = totalCredit app Artist.themes tag ∧
  weight (t_styles (tallyRatings app)) tag = totalCredit app Artist.styles tag ∧
  weight (t_eras (tallyRatings app)) tag = totalCredit app (λ a, [Artist.era a]) tag.
Proof.
  unfold tallyRatings, totalCredit.
  destruct (foldl_tallyEntry_weights (artists app) (map_to_list (userRatings app))
              (mkTally ∅ ∅ ∅ ∅ 0 0) tag) as (-> & -> & -> & ->).
  cbn [t_genres t_themes t_styles t_eras]. unfold weight.
  rewrite lookup_empty. done.
Qed.

(** X1: the weight the profile gives to a genre, a theme, a style or an era
    is the sum, over the entries of the rating mapping, of the rating of
    the entry counted once for every occurrence of the tag on the artist
    found for it; entries with no artist in the catalog add nothing. *)
Theorem getUserPreferences_weights (app : MusicRecommender) (tag : string) :
  weight (Preferences.genres (getUserPreferences app)) tag
    = totalCredit app Artist.genres tag ∧
  weight (Preferences.themes (getUserPreferences app)) tag
    = totalCredit app Artist.themes tag ∧
  weight (Preferences.styles (getUserPreferences app)) tag
    = totalCredit app Artist.styles tag ∧
  weight (Preferences.eras (getUserPreferences app)) tag
    = totalCredit app (λ a, [Artist.era a]) tag.
Proof.
  unfold getUserPreferences.
  cbn [Preferences.genres Preferences.themes Preferences.styles Preferences.eras].
  apply tallyRatings_weights.
Qed.

Lemma sum_Permutation (l l' : list Z) :
  l ≡ₚ l' → foldr Z.add 0 l = foldr Z.add 0 l'.
Proof.
  induction 1 as [|x l l' _ IH|x y l|l l' l'' _ IH1 _ IH2]; simpl; lia.
Qed.

(** The entries after [rateArtist]: the new entry and the former entries
    under the other keys. *)
Lemma map_to_list_rate (ratings : gmap string Rating.t) (k : string) (d : Rating.t) :
  map_to_list (<[k := d]> ratings) ≡ₚ (k, d) :: map_to_list (delete k ratings) ∧
  map_to_list ratings
    ≡ₚ match ratings !! k with
       | Some old => (k, old) :: map_to_list (delete k ratings)
       | None => map_to_list (delete k ratings)
       end.
Proof.
  split.
  - rewrite <- insert_delete_eq. apply map_to_list_insert, lookup_delete_eq.
  - destruct (ratings !! k) as [old|] eqn:E.
    + rewrite <- (insert_delete_id ratings k old E) at 1.
      apply map_to_list_insert, lookup_delete_eq.
    + by rewrite delete_id.
Qed.

Lemma totalCredit_rateArtist (app : MusicRecommender) (artistId : Id)
    (rating now : Z) (tagsOf : Artist.t → list string) (tag : string) :
  totalCredit (rateArtist app artistId rating now) tagsOf tag
  = totalCredit app tagsOf tag
    - match userRatings app !! ToString artistId with
      | Some old => tagCredit (artists app) tagsOf tag (ToString artistId, old)
      | None => 0
      end
    + tagCredit (artists app) tagsOf tag (ToString artistId, Rating.mk rating now).
Proof.
  unfold totalCredit, rateArtist. cbn [artists userRatings set_userRatings].
  destruct (map_to_list_rate (userRatings app) (ToString artistId)
              (Rating.mk rating now)) as [Hnew Hold].
  rewrite (sum_Permutation _ _ (fmap_Permutation _ _ _ Hnew)).
  rewrite (sum_Permutation _ _ (fmap_Permutation _ _ _ Hold)).
  destruct (userRatings app !! ToString artistId); csimpl; lia.
Qed.

(** X2: rating an artist changes the weight of a tag by the credit of the
    new entry minus the credit of the entry it replaces, if any: a first
    rating [r] of an artist found in the catalog adds [r] to the weight of
    each genre it carries, once per occurrence, and a re-rating replaces the
    former contribution. *)
Theorem rateArtist_weights (app : MusicRecommender) (artistId : Id)
    (rating now : Z) (tag : string) :
  let replaced tagsOf :=
    match userRatings app !! ToString artistId with
    | Some old => tagCredit (artists app) tagsOf tag (ToString artistId, old)
    | None => 0
    end in
  let added tagsOf :=
    tagCredit (artists app) tagsOf tag (ToString artistId, Rating.mk rating now) in
  weight (Preferences.genres (getUserPreferences (rateArtist app artistId rating now))) tag
    = weight (Preferences.genres (getUserPreferences app)) tag
      - replaced Artist.genres + added Artist.genres ∧
  weight (Preferences.themes (getUserPreferences (rateArtist app artistId rating now))) tag
    = weight (Preferences.themes (getUserPreferences app)) tag
      - replaced Artist.themes + added Artist.themes ∧
  weight (Preferences.styles (getUserPreferences (rateArtist app artistId rating now))) tag
    = weight (Preferences.styles (getUserPreferences app)) tag
      - replaced Artist.styles + added Artist.styles ∧
  weight (Preferences.eras (getUserPreferences (rateArtist app artistId rating now))) tag
    = weight (Preferences.eras (getUserPreferences app)) tag
      - replaced (λ a, [Artist.era a]) + added (λ a, [Artist.era a]).
Proof.
  intros replaced added. unfold getUserPreferences.
  cbn [Preferences.genres Preferences.themes Preferences.styles Preferences.eras].
  destruct (tallyRatings_weights app tag) as (-> & -> & -> & ->).
  destruct (tallyRatings_weights (rateArtist app artistId rating now) tag)
    as (-> & -> & -> & ->).
  subst replaced added. cbv beta.
  rewrite !totalCredit_rateArtist. done.
Qed.

Lemma tagCredit_nonneg (catalog : list Artist.t) (tagsOf : Artist.t → list string)
    (tag : string) (entry : string * Rating.t) :
  0 <= Rating.rating entry.2 → 0 <= tagCredit catalog tagsOf tag entry.
Proof.
  intros H. unfold tagCredit. destruct (List.find _ catalog); lia.
Qed.

Lemma totalCredit_nonneg (app : MusicRecommender) (tagsOf : Artist.t → list string)
    (tag : string) :
  (∀ k d, userRatings app !! k = Some d → 0 <= Rating.rating d) →
  0 <= totalCredit app tagsOf tag.
Proof.
  intros H. unfold totalCredit.
  assert (Hall : Forall (λ entry, 0 <= Rating.rating entry.2)
                        (map_to_list (userRatings app))).
  { apply Forall_forall. intros [k d] Hin%elem_of_map_to_list. by eapply H. }
  induction Hall as [|entry entries Hentry _ IH]; csimpl; [done|].
  pose proof (tagCredit_nonneg (artists app) tagsOf tag entry Hentry). lia.
Qed.

Lemma sumWeights_nonneg (m : gmap string Z) (tags : list string) :
  (∀ tag, 0 <= weight m tag) → 0 <= sumWeights m tags.
Proof.
  intros H. unfold sumWeights.
  induction tags as [|tag tags IH]; csimpl; [done|].
  pose proof (H tag). lia.
Qed.

(** X3: when no rating is negative, no weight of the profile is negative
    and the score of every candidate is at least 0 (and below 10 more than
    its similarity). *)
Theorem calculateArtistScore_nonneg (app : MusicRecommender) (artist : Artist.t)
    (r : Draw) :
  (∀ k d, userRatings app !! k = Some d → 0 <= Rating.rating d) →
  0 <= similarity artist (getUserPreferences app) ∧
  (0 <= calculateArtistScore artist (getUserPreferences app) r)%Q ∧
  (calculateArtistScore artist (getUserPreferences app) r
   < inject_Z (similarity artist (getUserPreferences app)) + 10)%Q.
Proof.
  intros Hratings.
  assert (Hsim : 0 <= similarity artist (getUserPreferences app)).
  { rewrite similarity_formula.
    assert (Hw : ∀ tag,
      0 <= weight (Preferences.genres (getUserPreferences app)) tag ∧
      0 <= weight (Preferences.themes (getUserPreferences app)) tag ∧
      0 <= weight (Preferences.styles (getUserPreferences app)) tag ∧
      0 <= weight (Preferences.eras (getUserPreferences app)) tag).
    { intros tag. unfold getUserPreferences.
      cbn [Preferences.genres Preferences.themes Preferences.styles Preferences.eras].
      destruct (tallyRatings_weights app tag) as (-> & -> & -> & ->).
      repeat split; by apply totalCredit_nonneg. }
    pose proof (sumWeights_nonneg (Preferences.genres (getUserPreferences app))
                  (Artist.genres artist) (λ tag, proj1 (Hw tag))).
    pose proof (sumWeights_nonneg (Preferences.themes (getUserPreferences app))
                  (Artist.themes artist) (λ tag, proj1 (proj2 (Hw tag)))).
    pose proof (sumWeights_nonneg (Preferences.styles (getUserPreferences app))
                  (Artist.styles artist) (λ tag, proj1 (proj2 (proj2 (Hw tag))))).
    pose proof (proj2 (proj2 (proj2 (Hw (Artist.era artist))))). lia. }
  destruct (draw_bounds r) as [H0 H1].
  split; [exact Hsim|]. unfold calculateArtistScore. split.
  - apply Qle_trans with (inject_Z 0 + 0 * 10)%Q; [discriminate|].
    apply Qplus_le_compat.
    + rewrite <- Zle_Qle. exact Hsim.
    + apply Qmult_le_compat_r; [exact H0 | discriminate].
  - apply Qplus_lt_r.
    apply Qlt_le_trans with (1 * 10)%Q; [|discriminate].
    apply Qmult_lt_compat_r; [reflexivity | exact H1].
Qed.

Lemma calculateArtistScore_nonneg_witness :
  0 <= similarity artistC (getUserPreferences exampleApp) ∧
  (0 <= calculateArtistScore artistC (getUserPreferences exampleApp) draw_half)%Q.
Proof.
  destruct (calculateArtistScore_nonneg exampleApp artistC draw_half)
    as (Hsim & Hscore & _).
  - assert (Hall : map_Forall (λ (_ : string) d, 0 <= Rating.rating d)
                               (userRatings exampleApp)).
    { unfold exampleApp; cbn [userRatings].
      apply map_Forall_insert_2; [simpl; lia|].
      apply map_Forall_insert_2; [simpl; lia|]. apply map_Forall_empty. }
    exact Hall.
  - split; [exact Hsim | exact Hscore].
Defined.

(** ** calculateUniqueGenres *)

Lemma dom_addWeight (w : Z) (m : gmap string Z) (k : string) :
  dom (addWeight w m k) = {[k]} ∪ dom m.
Proof. unfold addWeight. apply dom_insert_L. Qed.

Lemma dom_foldl_addWeight (w : Z) (tags : list string) (m : gmap string Z) :
  dom (foldl (addWeight w) m tags) = list_to_set tags ∪ dom m.
Proof.
  revert m. induction tags as [|tag tags IH]; intros m; cbn [foldl list_to_set].
  - set_solver.
  - rewrite IH, dom_addWeight. set_solver.
Qed.

Lemma foldl_add_genres (tags : list string) (s : gset string) :
  foldl (λ (s : gset string) genre, {[genre]} ∪ s) s tags = list_to_set tags ∪ s.
Proof.
  revert s. induction tags as [|tag tags IH]; intros s; cbn [foldl list_to_set].
  - set_solver.
  - rewrite IH. set_solver.
Qed.

(** The set built by [calculateUniqueGenres] is the set of the keys of the
    genre weights built by [getUserPreferences]. *)
Lemma genres_set_dom (catalog : list Artist.t) (entries : list (string * Rating.t))
    (acc : Tally) :
  foldl (λ (genres : gset string) artistId,
           match List.find (λ a, loose_eq (Artist.id a) artistId) catalog with
           | Some artist =>
               foldl (λ (s : gset string) genre, {[genre]} ∪ s) genres
                     (Artist.genres artist)
           | None => genres
           end)
        (dom (t_genres acc)) entries.*1
  = dom (t_genres (foldl (tallyEntry catalog) acc entries)).
Proof.
  revert acc. induction entries as [|[artistId data] entries IH]; intros acc; [done|].
  csimpl. rewrite <- IH. f_equal.
  destruct (List.find _ catalog) as [artist|]; [|done].
  cbn [t_genres]. by rewrite foldl_add_genres, dom_foldl_addWeight.
Qed.

(** X4: the number of unique genres shown in the statistics is the number
    of genres that have a weight in the preference profile. *)
Theorem calculateUniqueGenres_profile (app : MusicRecommender) :
  calculateUniqueGenres app = size (dom (Preferences.genres (getUserPreferences app))).
Proof.
  unfold calculateUniqueGenres, getUserPreferences, tallyRatings.
  cbn [Preferences.genres].
  rewrite <- genres_set_dom. cbn [t_genres]. by rewrite dom_empty_L.
Qed.

(** ** The mean rating when every rated artist is known *)

Lemma filter_all {A : Type} (f : A → bool) (l : list A) :
  Forall (λ x, f x = true) l → List.filter f l = l.
Proof.
  induction 1 as [|x l Hx _ IH]; simpl; [done|]. by rewrite Hx, IH.
Qed.

(** X5: when every key of the rating mapping is (loosely) the identifier of
    an artist of the catalog, the mean rating of the profile is the mean
    over all entries of the rating mapping. *)
Theorem averageRating_all_found (app : MusicRecommender) :
  (∀ k, k ∈ dom (userRatings app) →
        ∃ a, a ∈ artists app ∧ loose_eq (Artist.id a) k = true) →
  Preferences.averageRating (getUserPreferences app)
  = spec_averageRating (userRatings app).
Proof.
  intros Hfound.
  assert (Hall : List.filter (foundInCatalog (artists app))
                             (map_to_list (userRatings app))
                 = map_to_list (userRatings app)).
  { apply filter_all, Forall_forall. intros [k d] Hin%elem_of_map_to_list.
    destruct (Hfound k) as (a & Ha & Heq); [apply elem_of_dom; eauto|].
    unfold foundInCatalog. apply existsb_exists. exists a.
    split; [by apply list_elem_of_In | exact Heq]. }
  unfold getUserPreferences, tallyRatings, spec_averageRating, meanRating.
  cbn [Preferences.averageRating].
  destruct (tally_totals (artists app) (map_to_list (userRatings app))
              (mkTally ∅ ∅ ∅ ∅ 0 0)) as [Ht Hc].
  cbv zeta in Ht, Hc. rewrite Hall in Ht, Hc. cbn [totalRating ratingCount] in Ht, Hc.
  rewrite Ht, Hc.
  destruct (Rating.rating <$> _) as [|v values]; [done|].
  replace (0 <? 0 + Z.of_nat (length (v :: values))) with true; [done|].
  symmetry. apply Z.ltb_lt. cbn [length]. lia.
Qed.

Lemma averageRating_all_found_witness :
  Preferences.averageRating (getUserPreferences exampleApp)
  = spec_averageRating (userRatings exampleApp).
Proof.
  apply (averageRating_all_found exampleApp).
  intros k Hk. apply elem_of_dom in Hk as [d Hd].
  assert (Hkeys : map_Forall (λ k _, k = "A"%string ∨ k = "B"%string)
                             (userRatings exampleApp)).
  { unfold exampleApp; cbn [userRatings].
    apply map_Forall_insert_2; [by left|].
    apply map_Forall_insert_2; [by right|]. apply map_Forall_empty. }
  destruct (Hkeys k d Hd) as [-> | ->].
  - exists artistA. split; [|reflexivity]. apply list_elem_of_In. simpl. tauto.
  - exists artistB. split; [|reflexivity]. apply list_elem_of_In. simpl. tauto.
Defined.

(** ** rateArtist *)

Lemma ratedCount_size (app : MusicRecommender) :
  ratedCount app = size (userRatings app).
Proof. unfold ratedCount. by rewrite length_fmap, length_map_to_list. Qed.

Lemma ratedCount_0 (app : MusicRecommender) :
  ratedCount app = 0%nat ↔ userRatings app = ∅.
Proof. rewrite ratedCount_size. apply map_size_empty_iff. Qed.

Lemma isRated_true (app : MusicRecommender) (i : Id) :
  isRated app i = true ↔ is_Some (userRatings app !! ToString i).
Proof. unfold isRated. apply bool_decide_eq_true. Qed.

(** X6: after [rateArtist] the mapping holds the new rating and time under
    the key of the identifier and what it held under every other key; the
    number of rated artists grows by one for a first rating and stays for a
    re-rating; a second rating of the same identifier replaces the first. *)
Theorem rateArtist_spec (app : MusicRecommender) (artistId : Id) (rating now : Z) :
  userRatings (rateArtist app artistId rating now) !! ToString artistId
    = Some (Rating.mk rating now) ∧
  (∀ k, k ≠ ToString artistId →
        userRatings (rateArtist app artistId rating now) !! k = userRatings app !! k) ∧
  ratedCount (rateArtist app artistId rating now)
    = (if isRated app artistId then ratedCount app else S (ratedCount app)) ∧
  (∀ rating' now',
     rateArtist (rateArtist app artistId rating now) artistId rating' now'
     = rateArtist app artistId rating' now').
Proof.
  unfold rateArtist. cbn [userRatings set_userRatings].
  split; [apply lookup_insert_eq|].
  split; [intros k Hk; by apply lookup_insert_ne|].
  split.
  - rewrite !ratedCount_size. cbn [userRatings set_userRatings]. rewrite map_size_insert.
    unfold isRated.
    destruct (userRatings app !! ToString artistId) as [d|] eqn:E.
    + rewrite bool_decide_eq_true_2 by eauto. done.
    + rewrite bool_decide_eq_false_2 by (intros [? ?]; congruence). done.
  - intros rating' now'. unfold set_userRatings.
    cbn [artists userRatings toListenList currentRecommendations recentlyShown
         recommendationCount randomCalls].
    by rewrite insert_insert_eq.
Qed.

Lemma rateArtist_spec_witness :
  userRatings (rateArtist exampleApp (StrId "C") 4 7) !! "A"%string
  = userRatings exampleApp !! "A"%string.
Proof.
  destruct (rateArtist_spec exampleApp (StrId "C") 4 7) as (_ & Hother & _).
  apply Hother. discriminate.
Defined.

Lemma isRated_rateArtist (app : MusicRecommender) (artistId other : Id)
    (rating now : Z) :
  isRated (rateArtist app artistId rating now) other
  = if decide (ToString other = ToString artistId) then true else isRated app other.
Proof.
  unfold isRated, rateArtist. cbn [userRatings set_userRatings].
  case_decide as E.
  - rewrite E, lookup_insert_eq. apply bool_decide_eq_true_2. eauto.
  - by rewrite lookup_insert_ne.
Qed.

(** X7: once rated, an artist is in none of the candidate lists (of the
    cycle, of the cold-start draw, of the replacement), whatever was rated
    or saved before; an artist with another key is a candidate of the cycle
    after the rating exactly when it was one before. *)
Theorem rated_artist_not_candidate (app : MusicRecommender) (artist : Artist.t)
    (rating now : Z) :
  artist ∉ unratedArtists (rateArtist app (Artist.id artist) rating now) ∧
  artist ∉ availableBands (rateArtist app (Artist.id artist) rating now) ∧
  artist ∉ unratedReplacements (rateArtist app (Artist.id artist) rating now) ∧
  (∀ other,
     ToString (Artist.id other) ≠ ToString (Artist.id artist) →
     other ∈ unratedArtists (rateArtist app (Artist.id artist) rating now)
     ↔ other ∈ unratedArtists app).
Proof.
  assert (Hrated : isRated (rateArtist app (Artist.id artist) rating now)
                           (Artist.id artist) = true).
  { rewrite isRated_rateArtist. by rewrite decide_True. }
  split; [|split; [|split]].
  - rewrite unratedArtists_spec. intros (_ & H & _). congruence.
  - rewrite availableBands_spec. intros (_ & H & _). congruence.
  - unfold unratedReplacements. rewrite list_elem_of_In, filter_In.
    rewrite Hrated. intros [_ H]. discriminate H.
  - intros other Hother. rewrite !unratedArtists_spec.
    rewrite isRated_rateArtist, decide_False by done.
    unfold inToListen, rateArtist. cbn [artists toListenList set_userRatings]. done.
Qed.

Lemma rated_artist_not_candidate_witness :
  artistC ∈ unratedArtists (rateArtist exampleApp (StrId "D") 4 7).
Proof.
  destruct (rated_artist_not_candidate exampleApp
              (Artist.mk (StrId "D") "D" [] [] [] 2000 "2000s" false None) 4 7)
    as (_ & _ & _ & Hother).
  apply (Hother artistC); [discriminate|].
  apply list_elem_of_In. vm_compute. left. reflexivity.
Defined.

(** ** removeRecommendation, addToListenList and removeFromListenList *)

Lemma isDisplayed_false (app : MusicRecommender) (i : Id) :
  isDisplayed app i = false ↔ i ∉ Artist.id <$> currentRecommendations app.
Proof.
  unfold isDisplayed, strict_eq. rewrite <- not_true_iff_false, existsb_exists.
  split; intros H Hin; apply H.
  - apply list_elem_of_fmap in Hin as (rec & -> & Hrec).
    exists rec. split; [by apply list_elem_of_In|]. by apply bool_decide_eq_true.
  - destruct Hin as (rec & Hrec & E). apply bool_decide_eq_true in E as <-.
    apply list_elem_of_fmap. exists rec. split; [done|]. by apply list_elem_of_In.
Qed.

Lemma getInitialBandsPool_elem_of (app : MusicRecommender) (artist : Artist.t) :
  artist ∈ getInitialBandsPool app →
  artist ∈ artists app ∧ ∃ n, n ∈ popularBandIds ∧ Artist.id artist = NumId n.
Proof.
  unfold getInitialBandsPool. intros (n & Hn & Hfind)%list_elem_of_omap.
  apply find_elem_of in Hfind as [Hin Heq].
  split; [exact Hin|]. exists n. split; [exact Hn|].
  by apply bool_decide_eq_true in Heq.
Qed.

(** What holds of every candidate for a replacement. *)
Lemma replacementPool_elem_of (app : MusicRecommender) (artist : Artist.t) :
  artist ∈ replacementPool app →
  artist ∈ artists app ∧
  isDisplayed app (Artist.id artist) = false ∧
  inToListen app (Artist.id artist) = false ∧
  isRated app (Artist.id artist) = false.
Proof.
  unfold replacementPool.
  destruct (length _ =? 0)%nat eqn:E.
  - apply Nat.eqb_eq in E. fold (ratedCount app) in E.
    apply ratedCount_0 in E.
    unfold availableReplacements.
    rewrite list_elem_of_In, filter_In, <- list_elem_of_In.
    rewrite andb_true_iff, !negb_true_iff.
    intros (Hpool & Hd & Hs).
    apply getInitialBandsPool_elem_of in Hpool as [Hin _].
    repeat split; try done.
    apply isRated_false. rewrite E. by rewrite dom_empty_L.
  - unfold unratedReplacements.
    rewrite list_elem_of_In, filter_In, <- list_elem_of_In.
    rewrite !andb_true_iff, !negb_true_iff. tauto.
Qed.

Lemma filter_id_gone {A : Type} (f : A → Id) (l : list A) (i : Id) :
  i ∉ f <$> List.filter (λ x, negb (strict_eq (f x) i)) l.
Proof.
  intros (x & -> & Hx)%list_elem_of_fmap.
  apply list_elem_of_In, filter_In in Hx as [_ Hx].
  apply negb_true_iff in Hx. unfold strict_eq in Hx.
  by apply bool_decide_eq_false in Hx.
Qed.

(** The general form of [removeRecommendation]. *)
Lemma removeRecommendation_result (random : nat → Draw) (app : MusicRecommender)
    (artistId : Id) :
  let kept := List.filter (λ artist, negb (strict_eq (Artist.id artist) artistId))
                          (currentRecommendations app) in
  artists (removeRecommendation random app artistId) = artists app ∧
  userRatings (removeRecommendation random app artistId) = userRatings app ∧
  toListenList (removeRecommendation random app artistId) = toListenList app ∧
  recentlyShown (removeRecommendation random app artistId) = recentlyShown app ∧
  ∃ replacement,
    currentRecommendations (removeRecommendation random app artistId)
      = kept ++ replacement ∧
    (length replacement <= 1)%nat ∧
    (replacement = [] ↔ replacementPool (set_currentRecommendations kept app) = []) ∧
    ∀ a, a ∈ replacement →
         (Artist.id a ∉ Artist.id <$> kept) ∧
         inToListen app (Artist.id a) = false ∧
         isRated app (Artist.id a) = false ∧
         Artist.id a ∈ Artist.id <$> artists app.
Proof.
  intros kept. unfold removeRecommendation. fold kept.
  destruct (drawReplacement_spec random (set_currentRecommendations kept app))
    as (Ha & Hr & Hs & replacement & Hcur & Hlen & Hnil & Hids).
  rewrite drawReplacement_recentlyShown.
  repeat split; try done.
  exists replacement. repeat split; try done; try apply Hnil.
  all: assert (Hid : Artist.id a ∈ Artist.id <$>
                       replacementPool (set_currentRecommendations kept app))
    by (apply Hids, list_elem_of_fmap; eauto).
  all: apply list_elem_of_fmap in Hid as (b & Hb & Hpool).
  all: apply replacementPool_elem_of in Hpool as (Hin & Hd & Hsaved & Hrated).
  all: rewrite Hb.
  - by apply isDisplayed_false in Hd.
  - exact Hsaved.
  - exact Hrated.
  - apply list_elem_of_fmap. eauto.
Qed.

Lemma filter_length_lt {A : Type} (f : A → bool) (l : list A) (x : A) :
  x ∈ l → f x = false → (length (List.filter f l) < length l)%nat.
Proof.
  intros Hin Hx. induction Hin as [x l|x y l Hin IH]; simpl.
  - rewrite Hx. pose proof (sublist_length _ _ (filter_sublist f l)). lia.
  - specialize (IH Hx). destruct (f y); simpl; lia.
Qed.

(** X8: [removeRecommendation] removes every displayed entry with the
    identifier, keeps the others in their order and appends at most one
    replacement, none when there is no candidate for it.  A displayed list
    without duplicate identifiers stays so; the list does not grow when the
    identifier was displayed; and every entry displayed afterwards was
    displayed before under another identifier, or is an artist of the
    catalog that is neither saved nor rated. *)
Theorem removeRecommendation_spec (random : nat → Draw) (app : MusicRecommender)
    (artistId : Id) :
  let kept := List.filter (λ artist, negb (strict_eq (Artist.id artist) artistId))
                          (currentRecommendations app) in
  let shown := currentRecommendations (removeRecommendation random app artistId) in
  kept `prefix_of` shown ∧
  (length shown <= S (length kept))%nat ∧
  (replacementPool (set_currentRecommendations kept app) = [] → shown = kept) ∧
  (NoDup (Artist.id <$> currentRecommendations app) → NoDup (Artist.id <$> shown)) ∧
  (artistId ∈ Artist.id <$> currentRecommendations app →
   (length shown <= length (currentRecommendations app))%nat) ∧
  (∀ a, a ∈ shown →
        (a ∈ currentRecommendations app ∧ Artist.id a ≠ artistId) ∨
        (inToListen app (Artist.id a) = false ∧
         isRated app (Artist.id a) = false ∧
         Artist.id a ∈ Artist.id <$> artists app)).
Proof.
  intros kept shown.
  destruct (removeRecommendation_result random app artistId)
    as (_ & _ & _ & _ & replacement & Hshown & Hlen & Hnil & Hnew).
  fold kept in Hshown, Hnil, Hnew. fold shown in Hshown.
  split; [rewrite Hshown; by apply prefix_app_r|].
  split; [rewrite Hshown, length_app; lia|].
  split; [intros Hpool; apply Hnil in Hpool; by rewrite Hshown, Hpool, app_nil_r|].
  split; [|split].
  - intros Hnodup. rewrite Hshown, fmap_app. apply NoDup_app.
    split; [|split].
    + eapply sublist_NoDup; [exact Hnodup|]. apply fmap_sublist, filter_sublist.
    + intros i Hkept (a & -> & Ha)%list_elem_of_fmap.
      by destruct (Hnew a Ha) as (Hfresh & _).
    + destruct replacement as [|a [|b replacement]]; csimpl.
      * apply NoDup_nil_2.
      * apply NoDup_singleton.
      * simpl in Hlen. lia.
  - intros (a & -> & Ha)%list_elem_of_fmap.
    assert (length kept < length (currentRecommendations app))%nat.
    { apply (filter_length_lt _ _ a Ha). unfold strict_eq.
      by rewrite bool_decide_eq_true_2. }
    rewrite Hshown, length_app. lia.
  - intros a. rewrite Hshown, elem_of_app. intros [Ha|Ha].
    + left. apply list_elem_of_In, filter_In in Ha as [Ha Hne].
      split; [by apply list_elem_of_In|].
      apply negb_true_iff in Hne. unfold strict_eq in Hne.
      by apply bool_decide_eq_false in Hne.
    + right. destruct (Hnew a Ha) as (_ & Hs & Hr & Hc). done.
Qed.

Lemma removeRecommendation_spec_witness :
  NoDup (Artist.id <$> currentRecommendations
                         (removeRecommendation (always draw_half) savedApp (NumId 2))) ∧
  (length (currentRecommendations
             (removeRecommendation (always draw_half) savedApp (NumId 2)))
   <= length (currentRecommendations savedApp))%nat.
Proof.
  destruct (removeRecommendation_spec (always draw_half) savedApp (NumId 2))
    as (_ & _ & _ & Hnodup & Hlen & _).
  split.
  - apply Hnodup. apply (bool_decide_unpack _). vm_compute. reflexivity.
  - apply Hlen. apply (bool_decide_unpack _). vm_compute. reflexivity.
Defined.

Lemma inToListen_true (app : MusicRecommender) (i : Id) :
  inToListen app i = true ↔ i ∈ ListenItem.id <$> toListenList app.
Proof.
  destruct (inToListen app i) eqn:E.
  - split; [|done]. intros _. apply dec_stable. intros H.
    apply inToListen_false in H. congruence.
  - apply inToListen_false in E. split; [done|]. intros H. by destruct E.
Qed.

(** X9: [addToListenList] does nothing for an artist that is saved already.
    Otherwise it appends one entry with the identifier, the name and the
    genres of the artist to the saved list and removes the artist from the
    displayed list, where the replacement drawn is another artist; the
    catalog and the ratings are as before.  In both cases the artist is
    saved afterwards, and saving it a second time changes nothing. *)
Theorem addToListenList_spec (random : nat → Draw) (app : MusicRecommender)
    (artist : Artist.t) (now : Z) :
  (Artist.id artist ∈ ListenItem.id <$> toListenList app →
   addToListenList random app artist now = app) ∧
  (Artist.id artist ∉ ListenItem.id <$> toListenList app →
   toListenList (addToListenList random app artist now)
     = toListenList app
       ++ [ListenItem.mk (Artist.id artist) (Artist.name artist)
                         (Artist.genres artist) now] ∧
   (Artist.id artist
      ∉ Artist.id <$> currentRecommendations (addToListenList random app artist now)) ∧
   artists (addToListenList random app artist now) = artists app ∧
   userRatings (addToListenList random app artist now) = userRatings app) ∧
  Artist.id artist ∈ ListenItem.id <$> toListenList (addToListenList random app artist now) ∧
  (∀ now', addToListenList random (addToListenList random app artist now) artist now'
           = addToListenList random app artist now).
Proof.
  set (item := ListenItem.mk (Artist.id artist) (Artist.name artist)
                             (Artist.genres artist) now).
  set (app1 := set_toListenList (toListenList app ++ [item]) app).
  destruct (removeRecommendation_result random app1 (Artist.id artist))
    as (Hart & Hrat & Hsaved & _ & replacement & Hshown & _ & _ & Hnew).
  assert (Hnow : Artist.id artist ∈ ListenItem.id <$> toListenList app1).
  { unfold app1. cbn [toListenList set_toListenList].
    rewrite fmap_app, elem_of_app. right. apply list_elem_of_singleton. done. }
  assert (Hfresh : Artist.id artist ∉ ListenItem.id <$> toListenList app →
                   addToListenList random app artist now
                   = removeRecommendation random app1 (Artist.id artist)).
  { intros H%inToListen_false. unfold addToListenList. by rewrite H. }
  assert (Hafter : Artist.id artist
            ∈ ListenItem.id <$> toListenList (addToListenList random app artist now)).
  { destruct (decide (Artist.id artist ∈ ListenItem.id <$> toListenList app))
      as [Hin|Hout].
    - unfold addToListenList. by rewrite (proj2 (inToListen_true _ _) Hin).
    - rewrite (Hfresh Hout), Hsaved. exact Hnow. }
  split; [|split; [|split]].
  - intros H%inToListen_true. unfold addToListenList. by rewrite H.
  - intros Hout. rewrite (Hfresh Hout), Hsaved, Hart, Hrat.
    repeat split; try done.
    rewrite Hshown, fmap_app, elem_of_app. intros [Hkept|Hrep].
    + by apply filter_id_gone in Hkept.
    + apply list_elem_of_fmap in Hrep as (a & Ha & Hin).
      destruct (Hnew a Hin) as (_ & Hs & _). rewrite <- Ha in Hs.
      apply inToListen_false in Hs. by destruct Hs.
  - exact Hafter.
  - intros now'. apply inToListen_true in Hafter.
    unfold addToListenList at 1. by rewrite Hafter.
Qed.

Lemma addToListenList_spec_witness :
  addToListenList (always draw_half) savedApp (band 1 "The Beatles" "rock") 9 = savedApp ∧
  (NumId 3 ∉ Artist.id <$> currentRecommendations
     (addToListenList (always draw_half) savedApp (band 3 "Pink Floyd" "rock") 9)).
Proof.
  destruct (addToListenList_spec (always draw_half) savedApp
              (band 1 "The Beatles" "rock") 9) as (Hsaved & _).
  destruct (addToListenList_spec (always draw_half) savedApp
              (band 3 "Pink Floyd" "rock") 9) as (_ & Hnew & _).
  split.
  - apply Hsaved. apply (bool_decide_unpack _). vm_compute. reflexivity.
  - apply Hnew. apply (bool_decide_unpack _). vm_compute. reflexivity.
Defined.

(** X10: [addToListenList] keeps the identifiers of the saved list free of
    duplicates. *)
Theorem addToListenList_NoDup (random : nat → Draw) (app : MusicRecommender)
    (artist : Artist.t) (now : Z) :
  NoDup (ListenItem.id <$> toListenList app) →
  NoDup (ListenItem.id <$> toListenList (addToListenList random app artist now)).
Proof.
  intros Hnodup. unfold addToListenList.
  destruct (inToListen app (Artist.id artist)) eqn:E; [exact Hnodup|].
  apply inToListen_false in E.
  destruct (removeRecommendation_result random
              (set_toListenList
                 (toListenList app
                  ++ [ListenItem.mk (Artist.id artist) (Artist.name artist)
                                    (Artist.genres artist) now]) app)
              (Artist.id artist)) as (_ & _ & -> & _).
  cbn [toListenList set_toListenList]. rewrite fmap_app. apply NoDup_app.
  split; [exact Hnodup|]. split; [|apply NoDup_singleton].
  intros i Hi ->%list_elem_of_singleton. by destruct E.
Qed.

Lemma addToListenList_NoDup_witness :
  NoDup (ListenItem.id <$> toListenList
           (addToListenList (always draw_half) savedApp (band 3 "Pink Floyd" "rock") 9)).
Proof.
  apply (addToListenList_NoDup (always draw_half) savedApp
           (band 3 "Pink Floyd" "rock") 9).
  apply (bool_decide_unpack _). vm_compute. reflexivity.
Defined.

(** X11: saving an artist that was not saved and then removing it from the
    saved list gives back the saved list as it was. *)
Theorem removeFromListenList_addToListenList (random : nat → Draw)
    (app : MusicRecommender) (artist : Artist.t) (now : Z) :
  Artist.id artist ∉ ListenItem.id <$> toListenList app →
  toListenList (removeFromListenList (addToListenList random app artist now)
                                     (Artist.id artist))
  = toListenList app.
Proof.
  intros Hout. unfold addToListenList.
  rewrite (proj2 (inToListen_false _ _) Hout).
  unfold removeFromListenList. cbn [toListenList set_toListenList].
  destruct (removeRecommendation_result random
              (set_toListenList
                 (toListenList app
                  ++ [ListenItem.mk (Artist.id artist) (Artist.name artist)
                                    (Artist.genres artist) now]) app)
              (Artist.id artist)) as (_ & _ & -> & _).
  cbn [toListenList set_toListenList].
  rewrite List.filter_app, (filter_absent ListenItem.id) by done.
  cbn [List.filter ListenItem.id]. unfold strict_eq.
  rewrite bool_decide_eq_true_2 by done. cbn [negb]. apply app_nil_r.
Qed.

Lemma removeFromListenList_addToListenList_witness :
  toListenList (removeFromListenList
                  (addToListenList (always draw_half) savedApp
                                   (band 3 "Pink Floyd" "rock") 9) (NumId 3))
  = toListenList savedApp.
Proof.
  apply (removeFromListenList_addToListenList (always draw_half) savedApp
           (band 3 "Pink Floyd" "rock") 9).
  apply (bool_decide_unpack _). vm_compute. reflexivity.
Defined.

(** X12: after [removeFromListenList] no saved entry has the identifier;
    the entries with another identifier are all kept, in their order, and
    nothing else changes.  An unrated artist of the catalog with that
    identifier is a candidate of the next cycle again. *)
Theorem removeFromListenList_spec (app : MusicRecommender) (artistId : Id) :
  (artistId ∉ ListenItem.id <$> toListenList (removeFromListenList app artistId)) ∧
  toListenList (removeFromListenList app artistId) `sublist_of` toListenList app ∧
  (∀ item, item ∈ toListenList app → ListenItem.id item ≠ artistId →
           item ∈ toListenList (removeFromListenList app artistId)) ∧
  set_toListenList (toListenList app) (removeFromListenList app artistId) = app ∧
  (∀ artist, artist ∈ artists app → Artist.id artist = artistId →
             isRated app artistId = false →
             artist ∈ unratedArtists (removeFromListenList app artistId)).
Proof.
  unfold removeFromListenList.
  split; [apply filter_id_gone|]. cbn [toListenList set_toListenList].
  split; [apply filter_sublist|]. split; [|split].
  - intros item Hin Hne. apply list_elem_of_In, filter_In.
    split; [by apply list_elem_of_In|]. unfold strict_eq.
    by rewrite bool_decide_eq_false_2.
  - by destruct app.
  - intros artist Hin <- Hrated. apply unratedArtists_spec.
    cbn [artists set_toListenList].
    split; [exact Hin|]. split; [exact Hrated|].
    apply inToListen_false. cbn [toListenList set_toListenList].
    apply filter_id_gone.
Qed.

Lemma removeFromListenList_spec_witness :
  band 1 "The Beatles" "rock" ∈ unratedArtists (removeFromListenList savedApp (NumId 1)).
Proof.
  destruct (removeFromListenList_spec savedApp (NumId 1)) as (_ & _ & _ & _ & H).
  apply H; [|reflexivity|reflexivity].
  apply list_elem_of_In. simpl. tauto.
Defined.
